(** * Chunked text-to-speech: the segmenter and the audio reassembler

    A shallow embedding of [chunkText] and [generateSpeech] from
    [src/services/geminiService.ts], with the properties the specification
    states about them.

    Conventions of the embedding.
    - A JavaScript string is the list of its UTF-16 code units ([N]);
      [s.length] is [length s], [a + b] is [a ++ b].
    - A [Uint8Array] is a [list byte].
    - The [while] loop of [chunkText] is written with a fuel argument that
      bounds the number of iterations; [None] means the bound was reached.
      A run that yields [None] for every fuel is a run that never leaves
      the loop.
    - [await]-ed calls are sequenced by explicit state passing over the state
      of the remote service. *)

From Stdlib Require Import String Ascii.
From Stdlib Require Import List Arith ZArith NArith Lia Bool.
From Stdlib Require Import Init.Byte.
Import ListNotations.

Set Implicit Arguments.

(** ** JavaScript strings *)

Module JS.

Definition char := N.
Definition jsstring := list char.

Definition code (a : ascii) : char := N_of_ascii a.

Fixpoint lit (s : string) : jsstring :=
  match s with
  | EmptyString => []
  | String a s' => code a :: lit s'
  end.

Definition LF : char := 10%N.
Definition SPACE : char := 32%N.
Definition DOT : char := 46%N.
Definition BANG : char := 33%N.
Definition QUESTION : char := 63%N.

(** The characters removed by [String.prototype.trim] and matched by the
    class [\s]: WhiteSpace and LineTerminator of ECMAScript. *)
Definition isWhiteSpace (c : char) : bool :=
  ((9 <=? c) && (c <=? 13) ||
   (c =? 32) || (c =? 160) || (c =? 5760) ||
   (8192 <=? c) && (c <=? 8202) ||
   (c =? 8232) || (c =? 8233) || (c =? 8239) || (c =? 8287) ||
   (c =? 12288) || (c =? 65279))%N.

Fixpoint trimStart (s : jsstring) : jsstring :=
  match s with
  | [] => []
  | c :: s' => if isWhiteSpace c then trimStart s' else s
  end.

Definition trimEnd (s : jsstring) : jsstring := rev (trimStart (rev s)).

Definition trim (s : jsstring) : jsstring := trimEnd (trimStart s).

(** Truthiness of a string: the empty string is the only falsy one. *)
Definition truthy (s : jsstring) : bool :=
  match s with [] => false | _ :: _ => true end.

(** [s.substring(a)] and [s.substring(0, b)], for an index given as the
    integer the code holds; a negative index counts as 0 and an index past
    the end as the length. *)
Definition substring_from (s : jsstring) (a : Z) : jsstring := skipn (Z.to_nat a) s.
Definition substring_to (s : jsstring) (b : Z) : jsstring := firstn (Z.to_nat b) s.

(** [s.lastIndexOf(c, pos)] for a one-character search string: the largest
    index [k <= pos] with [s[k] = c], or [-1]. *)
Fixpoint lastIndexOf (c : char) (s : jsstring) (pos : nat) : Z :=
  match s with
  | [] => (-1)%Z
  | x :: s' =>
      let later := match pos with O => (-1)%Z | S p => lastIndexOf c s' p end in
      if (0 <=? later)%Z then (later + 1)%Z
      else if (x =? c)%N then 0%Z else (-1)%Z
  end.

(** A string without any white space. *)
Definition noWhiteSpace (s : jsstring) : Prop :=
  Forall (fun c => isWhiteSpace c = false) s.

End JS.

(** ** The regular expressions [String.prototype.match] is called with *)

Module Regex.
Import JS.

(** The fragment of the pattern language that the source uses: a greedy
    [+] over a character class, the end-of-input assertion [$] (no [m]
    flag), sequence and ordered alternation. *)
Inductive regex : Type :=
| ClassPlus (cls : char -> bool)
| Eos
| Seq (r1 r2 : regex)
| Alt (r1 r2 : regex).

(** Backtracking matcher in the continuation style of the ECMAScript
    definition: [k] is what remains to be matched after this piece, and the
    result is the input left after the whole match. The greedy [+] first
    tries to take one more character and falls back to stopping here. *)
Fixpoint classPlus (cls : char -> bool) (s : jsstring)
         (k : jsstring -> option jsstring) : option jsstring :=
  match s with
  | [] => None
  | c :: s' =>
      if cls c then
        match classPlus cls s' k with
        | Some r => Some r
        | None => k s'
        end
      else None
  end.

Fixpoint run (r : regex) (s : jsstring)
         (k : jsstring -> option jsstring) : option jsstring :=
  match r with
  | ClassPlus cls => classPlus cls s k
  | Eos => match s with [] => k s | _ :: _ => None end
  | Seq r1 r2 => run r1 s (fun s1 => run r2 s1 k)
  | Alt r1 r2 =>
      match run r1 s k with
      | Some x => Some x
      | None => run r2 s k
      end
  end.

(** One attempt at the current position: the input left after the match. *)
Definition matchHere (r : regex) (s : jsstring) : option jsstring :=
  run r s (fun rest => Some rest).

(** The global ([g]) scan of [String.prototype.match]: starting from
    [lastIndex = 0], find the leftmost match at or after [lastIndex], record
    the matched substring, move [lastIndex] to its end (one further after an
    empty match), repeat. [s] is the input from [lastIndex] on; [n] bounds
    the number of positions still to visit. *)
Fixpoint scan (n : nat) (r : regex) (s : jsstring) : list jsstring :=
  match n with
  | O => []
  | S n' =>
      match matchHere r s with
      | Some rest =>
          let m := firstn (length s - length rest) s in
          match m with
          | [] => m :: match s with [] => [] | _ :: s' => scan n' r s' end
          | _ :: _ => m :: scan n' r rest
          end
      | None =>
          match s with
          | [] => []
          | _ :: s' => scan n' r s'
          end
      end
  end.

(** [s.match(/r/g)]: the list of matched substrings, [None] for [null]. *)
Definition matchAll (r : regex) (s : jsstring) : option (list jsstring) :=
  match scan (S (length s)) r s with
  | [] => None
  | ms => Some ms
  end.

(** [cutFrom units s]: the [units] are taken from [s] in order and without
    overlap; [s] is the units interleaved with stretches that belong to no
    unit. *)
Inductive cutFrom : list jsstring -> jsstring -> Prop :=
| cut_done s : cutFrom [] s
| cut_skip c s units : cutFrom units s -> cutFrom units (c :: s)
| cut_take m rest units : cutFrom units rest -> cutFrom (m :: units) (m ++ rest).

End Regex.

(** ** The segmenter *)

Module Segmenter.
Import JS Regex.

Definition MAX_CHAR_LIMIT : nat := 3000.

Definition isDelim (c : char) : bool :=
  ((c =? DOT) || (c =? BANG) || (c =? QUESTION) || (c =? LF))%N.

Definition notDelim (c : char) : bool := negb (isDelim c).

(** [/[^.!?\n]+[.!?\n]+(\s+|$)|[^.!?\n]+$/g] *)
Definition sentencePattern : regex :=
  Alt (Seq (ClassPlus notDelim)
           (Seq (ClassPlus isDelim) (Alt (ClassPlus isWhiteSpace) Eos)))
      (Seq (ClassPlus notDelim) Eos).

(** [text.match(...) || [text]] *)
Definition rawSentences (text : jsstring) : list jsstring :=
  match matchAll sentencePattern text with
  | Some ms => ms
  | None => [text]
  end.

(** Where one iteration of the hard split cuts [remaining]:
    [remaining.lastIndexOf(' ', MAX_CHAR_LIMIT)], or [MAX_CHAR_LIMIT] when
    that is [-1]. *)
Definition breakAt (remaining : jsstring) : Z :=
  let breakIndex := lastIndexOf SPACE remaining MAX_CHAR_LIMIT in
  if (breakIndex =? -1)%Z then Z.of_nat MAX_CHAR_LIMIT else breakIndex.

(** The [while (remaining.length > 0)] loop. The state is [chunks],
    [currentChunk] and [remaining]; the result is the pair of [chunks] and
    [currentChunk] when the loop is left. *)
Fixpoint hardSplit (fuel : nat) (chunks : list jsstring)
         (currentChunk remaining : jsstring)
  : option (list jsstring * jsstring) :=
  match fuel with
  | O => None
  | S fuel' =>
      if 0 <? length remaining then
        if length remaining <=? MAX_CHAR_LIMIT then
          Some (chunks, remaining)
        else
          let breakIndex := breakAt remaining in
          hardSplit fuel'
                    (chunks ++ [trim (substring_to remaining breakIndex)])
                    currentChunk
                    (substring_from remaining breakIndex)
      else Some (chunks, currentChunk)
  end.

(** The [for (const sentence of rawSentences)] loop. *)
Fixpoint forSentences (fuel : nat) (sentences : list jsstring)
         (chunks : list jsstring) (currentChunk : jsstring)
  : option (list jsstring * jsstring) :=
  match sentences with
  | [] => Some (chunks, currentChunk)
  | sentence :: rest =>
      if MAX_CHAR_LIMIT <? length sentence then
        let flushed :=
          if truthy currentChunk
          then (chunks ++ [trim currentChunk], [])
          else (chunks, currentChunk) in
        match hardSplit fuel (fst flushed) (snd flushed) sentence with
        | None => None
        | Some (chunks', currentChunk') =>
            forSentences fuel rest chunks' currentChunk'
        end
      else if length (currentChunk ++ sentence) <=? MAX_CHAR_LIMIT then
        forSentences fuel rest chunks (currentChunk ++ sentence)
      else
        forSentences fuel rest (chunks ++ [trim currentChunk]) sentence
  end.

Definition chunkText (fuel : nat) (text : jsstring) : option (list jsstring) :=
  match forSentences fuel (rawSentences text) [] [] with
  | None => None
  | Some (chunks, currentChunk) =>
      Some (if truthy (trim currentChunk)
            then chunks ++ [trim currentChunk]
            else chunks)
  end.

(** [chunkText text] returns [chunks]: some number of loop iterations is
    enough; [chunkText text] hangs: no number is. *)
Definition returns (text : jsstring) (chunks : list jsstring) : Prop :=
  exists fuel, chunkText fuel text = Some chunks.

Definition hangs (text : jsstring) : Prop :=
  forall fuel, chunkText fuel text = None.

(** A string within the budget, and a string without sentence delimiters. *)
Definition within (s : jsstring) : Prop := length s <= MAX_CHAR_LIMIT.

Definition plain (s : jsstring) : Prop := Forall (fun c => notDelim c = true) s.

End Segmenter.

(** ** The helper of [utils/fileUtils] *)

Module FileUtils.
Import JS.

(** Results of code that can throw: the value returned, or the message of
    the exception thrown. *)
Inductive outcome (A : Type) : Type :=
| Return (a : A)
| Throw (message : string).

Arguments Throw {A} message.

Definition sextet (c : char) : option N :=
  (if (65 <=? c) && (c <=? 90) then Some (c - 65)
   else if (97 <=? c) && (c <=? 122) then Some (c - 71)
   else if (48 <=? c) && (c <=? 57) then Some (c + 4)
   else if c =? 43 then Some 62
   else if c =? 47 then Some 63
   else None)%N.

Definition PAD : char := 61%N.

Definition octet (n : N) : byte :=
  match Byte.of_N (n mod 256) with
  | Some b => b
  | None => x00
  end.

Definition invalidCharacter : string := "InvalidCharacterError".

(** Modelled from the spec: [base64ToUint8Array] of [utils/fileUtils.ts] is
    not among the sources; the specification asks that the payload be
    "invertible to raw bytes via standard base64 decoding". Four characters
    of the alphabet give three bytes; the last group may be padded with one
    or two [=]; anything else throws. *)
Fixpoint base64ToUint8Array (base64 : jsstring) : outcome (list byte) :=
  match base64 with
  | [] => Return []
  | a :: b :: c :: d :: rest =>
      match sextet a, sextet b with
      | Some va, Some vb =>
          let b0 := octet (va * 4 + vb / 16) in
          match sextet c, sextet d with
          | Some vc, Some vd =>
              match base64ToUint8Array rest with
              | Return bytes =>
                  Return (b0 :: octet (vb * 16 + vc / 4) :: octet (vc * 64 + vd) :: bytes)
              | Throw e => Throw e
              end
          | Some vc, None =>
              if (d =? PAD)%N && negb (truthy rest)
              then Return [b0; octet (vb * 16 + vc / 4)]
              else Throw invalidCharacter
          | None, _ =>
              if (c =? PAD)%N && (d =? PAD)%N && negb (truthy rest)
              then Return [b0]
              else Throw invalidCharacter
          end
      | _, _ => Throw invalidCharacter
      end
  | _ => Throw invalidCharacter
  end.

End FileUtils.

(** ** The synthesizer and reassembler *)

Module Speech.
Import JS Segmenter.
Export FileUtils.

(** The part of the service's response that the code reads:
    [response.candidates?.[0]?.content?.parts?.[0]?.inlineData?.data]. A
    missing property is [None]. *)
Record InlineData : Type := { data : option jsstring }.
Record Part : Type := { inlineData : option InlineData }.
Record Content : Type := { parts : option (list Part) }.
Record Candidate : Type := { content : option Content }.
Record GenerateContentResponse : Type := { candidates : option (list Candidate) }.

Definition chain {A B : Type} (x : option A) (f : A -> option B) : option B :=
  match x with
  | Some a => f a
  | None => None
  end.

Notation "x ?. f" := (chain x f) (at level 50, left associativity).

Definition inlineAudio (response : GenerateContentResponse) : option jsstring :=
  candidates response ?. @hd_error _ ?. content ?. parts ?. @hd_error _
    ?. inlineData ?. data.

(** [new Uint8Array(n)] and [target.set(source, offset)], which throws when
    the source does not fit. *)
Definition Uint8Array_new (n : nat) : list byte := repeat x00 n.

Definition Uint8Array_set (target source : list byte) (offset : nat)
  : outcome (list byte) :=
  if offset + length source <=? length target
  then Return (firstn offset target ++ source
                 ++ skipn (offset + length source) target)
  else Throw "RangeError: offset is out of bounds".

(** The second loop of [generateSpeech]: copy every element of [audioChunks]
    to [combinedAudio] at the running [offset]. *)
Fixpoint copyChunks (audioChunks : list (list byte)) (combinedAudio : list byte)
         (offset : nat) : outcome (list byte) :=
  match audioChunks with
  | [] => Return combinedAudio
  | chunk :: rest =>
      match Uint8Array_set combinedAudio chunk offset with
      | Return combinedAudio' =>
          copyChunks rest combinedAudio' (offset + length chunk)
      | Throw e => Throw e
      end
  end.

Definition noAudio : string := "No audio content generated from Gemini.".

Definition failedToGenerate : string :=
  "Failed to generate speech audio. The text might be too complex or the service is temporarily unavailable.".

(** Number of bytes of a list of payloads. *)
Definition total (ps : list (list byte)) : nat := list_sum (map (@length byte) ps).

(** The bytes of [buffer] from [offset] on, [size] of them. *)
Definition range (buffer : list byte) (offset size : nat) : list byte :=
  firstn size (skipn offset buffer).

(** A segment that is sent to the service: not empty after trimming. *)
Definition spoken (chunk : jsstring) : bool := truthy (trim chunk).

(** The ways one call can end: it threw, its payload could not be decoded,
    or it went through. *)
Inductive verdict : Type := Threw (e : string) | Undecodable (e : string) | Passed.

Section Synthesis.

(** The remote capability: its state, and what one call of
    [ai.models.generateContent] with the given text and voice answers and
    leaves behind. The model name and the response modality are constants
    of the request and are left out. *)
Variable Service : Type.
Variable generateContent :
  Service -> jsstring -> string -> outcome GenerateContentResponse * Service.

(** The decoder imported from [utils/fileUtils]. *)
Variable decode : jsstring -> outcome (list byte).

(** One call as the service sees it. *)
Record Call : Type := {
  callText : jsstring;
  callVoice : string;
  callReply : outcome GenerateContentResponse
}.

(** The world of a run: the service and the calls issued to it so far, in
    order. *)
Record World : Type := {
  remote : Service;
  issued : list Call
}.

Definition await_generateContent (w : World) (text : jsstring) (voiceName : string)
  : outcome GenerateContentResponse * World :=
  let (reply, remote') := generateContent (remote w) text voiceName in
  (reply,
   {| remote := remote';
      issued := issued w ++ [{| callText := text; callVoice := voiceName;
                                callReply := reply |}] |}).

(** The first loop of [generateSpeech], [for (const chunk of textChunks)],
    over the accumulators [audioChunks] and [totalLength]. *)
Fixpoint synthesize (voiceName : string) (textChunks : list jsstring)
         (audioChunks : list (list byte)) (totalLength : nat) (w : World)
  : outcome (list (list byte) * nat) * World :=
  match textChunks with
  | [] => (Return (audioChunks, totalLength), w)
  | chunk :: rest =>
      if negb (truthy (trim chunk)) then
        synthesize voiceName rest audioChunks totalLength w
      else
        match await_generateContent w chunk voiceName with
        | (Throw e, w') => (Throw e, w')
        | (Return response, w') =>
            match inlineAudio response with
            | Some base64Audio =>
                if truthy base64Audio then
                  match decode base64Audio with
                  | Return audioData =>
                      synthesize voiceName rest (audioChunks ++ [audioData])
                                 (totalLength + length audioData) w'
                  | Throw e => (Throw e, w')
                  end
                else synthesize voiceName rest audioChunks totalLength w'
            | None => synthesize voiceName rest audioChunks totalLength w'
            end
        end
  end.

(** What follows the first loop inside the [try] block. *)
Definition assemble (audioChunks : list (list byte)) (totalLength : nat)
  : outcome (list byte) :=
  if totalLength =? 0 then Throw noAudio
  else copyChunks audioChunks (Uint8Array_new totalLength) 0.

(** The body of the [try] block; [None] when [chunkText] does not return. *)
Definition tryBlock (fuel : nat) (text : jsstring) (voiceName : string) (w : World)
  : option (outcome (list byte) * World) :=
  match chunkText fuel text with
  | None => None
  | Some textChunks =>
      Some (match synthesize voiceName textChunks [] 0 w with
            | (Return (audioChunks, totalLength), w') =>
                (assemble audioChunks totalLength, w')
            | (Throw e, w') => (Throw e, w')
            end)
  end.

(** [generateSpeech]: the [catch] clause replaces whatever was thrown by
    one fixed error. *)
Definition generateSpeech (fuel : nat) (text : jsstring) (voiceName : string)
           (w : World) : option (outcome (list byte) * World) :=
  match tryBlock fuel text voiceName w with
  | None => None
  | Some (Return combinedAudio, w') => Some (Return combinedAudio, w')
  | Some (Throw _, w') => Some (Throw failedToGenerate, w')
  end.

(** The payload a call contributed: the decoded inline data of a reply that
    carries some, nothing otherwise. *)
Definition payloadOf (c : Call) : list (list byte) :=
  match callReply c with
  | Return response =>
      match inlineAudio response with
      | Some base64Audio =>
          if truthy base64Audio then
            match decode base64Audio with
            | Return audioData => [audioData]
            | Throw _ => []
            end
          else []
      | None => []
      end
  | Throw _ => []
  end.

Definition payloads (calls : list Call) : list (list byte) :=
  flat_map payloadOf calls.

Definition threw (c : Call) : bool :=
  match callReply c with
  | Throw _ => true
  | Return _ => false
  end.

(** How a call ended for the loop: [Passed] calls let it go on to the next
    segment. *)
Definition verdictOf (c : Call) : verdict :=
  match callReply c with
  | Throw e => Threw e
  | Return response =>
      match inlineAudio response with
      | Some base64Audio =>
          if truthy base64Audio then
            match decode base64Audio with
            | Return _ => Passed
            | Throw e => Undecodable e
            end
          else Passed
      | None => Passed
      end
  end.

Definition passed (c : Call) : Prop := verdictOf c = Passed.

(** The call that [await_generateContent] issues from [w], and the world it
    leaves. *)
Definition callOf (w : World) (chunk : jsstring) (voiceName : string) : Call :=
  {| callText := chunk; callVoice := voiceName;
     callReply := fst (generateContent (remote w) chunk voiceName) |}.

Definition worldAfter (w : World) (chunk : jsstring) (voiceName : string) : World :=
  {| remote := snd (generateContent (remote w) chunk voiceName);
     issued := issued w ++ [callOf w chunk voiceName] |}.

(** The two shapes of a run: every call went through and the loop reached
    the end of the segments, or the loop was left at the call that failed. *)
Definition completed (textChunks : list jsstring) (calls : list Call)
           (r : outcome (list byte)) : Prop :=
  Forall passed calls /\
  map (@callText) calls = filter spoken textChunks /\
  r = (if total (payloads calls) =? 0 then Throw noAudio
       else Return (concat (payloads calls))).

Definition aborted (textChunks : list jsstring) (calls : list Call)
           (r : outcome (list byte)) : Prop :=
  exists before last unsent e,
    calls = before ++ [last] /\
    Forall passed before /\
    (verdictOf last = Threw e \/ verdictOf last = Undecodable e) /\
    filter spoken textChunks = map (@callText) calls ++ unsent /\
    r = Throw e.

End Synthesis.

(** A service that plays back a fixed list of replies, one per call. *)
Definition scripted (script : list (outcome GenerateContentResponse))
           (text : jsstring) (voiceName : string)
  : outcome GenerateContentResponse * list (outcome GenerateContentResponse) :=
  match script with
  | [] => (Throw "no reply left", [])
  | reply :: rest => (reply, rest)
  end.

Definition audioReply (base64 : jsstring) : outcome GenerateContentResponse :=
  Return {| candidates := Some [ {| content := Some {| parts := Some [
    {| inlineData := Some {| data := Some base64 |} |} ] |} |} ] |}.

Definition emptyReply : outcome GenerateContentResponse :=
  Return {| candidates := Some [] |}.

End Speech.

(** ** Transcription: [getSystemInstruction] and [transcribeAudio] *)

Module Transcription.
Import JS FileUtils.

(** The type [Language] of [types.ts]. *)
Inductive Language : Type := Mixed | Urdu | English | Siraiki.

Definition baseInstruction : jsstring := lit "
    You are a professional transcriber. 
    Task:
    1. Transcribe the audio exactly as spoken.
    2. Format the output as a clean, readable script.
    3. If there are multiple speakers, try to distinguish them as 'Speaker 1', 'Speaker 2', etc.
    4. Do not add any introductory or concluding remarks. Just provide the transcript text.
  ".

(** The [switch] of [getSystemInstruction]; [Mixed] shares the [default]
    branch. *)
Definition getSystemInstruction (language : Language) : jsstring :=
  match language with
  | Urdu => baseInstruction ++ lit "
      5. The audio is in Urdu. Transcribe primarily in Urdu script (Nastaliq style unicode).
      6. If English words are used, you may keep them in English script if it represents clear code-switching, otherwise transliterate standard terms."
  | Siraiki => baseInstruction ++ lit "
      5. The audio is in Siraiki. Transcribe using the Siraiki/Urdu script (Arabic-based Shahmukhi script).
      6. Ensure specific Siraiki characters (like heavy consonants unique to the language) are represented correctly if using standard Unicode blocks."
  | English => baseInstruction ++ lit "
      5. The audio is in English. Transcribe in standard English."
  | Mixed => baseInstruction ++ lit "
      5. The audio contains mixed speech in Urdu, Siraiki, and English.
      6. Use proper scripts for each: Nastaliq style for Urdu/Siraiki and English script for English parts.
      7. Detect the language shifts naturally."
  end.

(** The request of [transcribeAudio]: the model, and the two parts of the
    contents, the inline audio and the instruction. *)
Record TranscriptionRequest : Type := {
  requestModel : string;
  requestMimeType : jsstring;
  requestData : jsstring;
  requestText : jsstring
}.

(** The part of the response that the code reads, [response.text]. *)
Record TranscriptionResponse : Type := { text : option jsstring }.

Definition modelId : string := "gemini-2.5-flash".

Definition noTranscription : jsstring := lit "No transcription generated.".

Definition failedToTranscribe : string :=
  "Failed to transcribe audio. Please try again.".

(** [a || b] on strings. *)
Definition orElse (a : option jsstring) (b : jsstring) : jsstring :=
  match a with
  | Some s => if truthy s then s else b
  | None => b
  end.

Section Transcribe.

(** [blobToBase64] of [utils/fileUtils] is not among the sources: it is a
    parameter, and so is the remote service. *)
Variable Blob : Type.
Variable blobToBase64 : Blob -> outcome jsstring.
Variable Service : Type.
Variable generateContent :
  Service -> TranscriptionRequest -> outcome TranscriptionResponse * Service.

Definition requestFor (base64Audio mimeType : jsstring) (language : Language)
  : TranscriptionRequest :=
  {| requestModel := modelId;
     requestMimeType := mimeType;
     requestData := base64Audio;
     requestText := getSystemInstruction language |}.

(** The body of the [try] block. *)
Definition transcribeBlock (audioBlob : Blob) (mimeType : jsstring)
           (language : Language) (s : Service) : outcome jsstring * Service :=
  match blobToBase64 audioBlob with
  | Throw e => (Throw e, s)
  | Return base64Audio =>
      match generateContent s (requestFor base64Audio mimeType language) with
      | (Return response, s') => (Return (orElse (text response) noTranscription), s')
      | (Throw e, s') => (Throw e, s')
      end
  end.

(** [transcribeAudio]: the [catch] clause replaces whatever was thrown. *)
Definition transcribeAudio (audioBlob : Blob) (mimeType : jsstring)
           (language : Language) (s : Service) : outcome jsstring * Service :=
  match transcribeBlock audioBlob mimeType language s with
  | (Return transcript, s') => (Return transcript, s')
  | (Throw _, s') => (Throw failedToTranscribe, s')
  end.

End Transcribe.

End Transcription.

(** ** The recorder component: [formatTime] and the upload handlers *)

Module Recorder.
Import JS FileUtils Transcription.

Definition COLON : char := 58%N.
Definition ZERO : char := 48%N.

(** The character of a decimal digit. *)
Definition digit (d : nat) : char := N.of_nat (48 + d).

(** [n.toString()] for a count [n]: its decimal digits, most significant
    first. [fuel] bounds the number of digits. *)
Fixpoint digitsOf (fuel n : nat) : jsstring :=
  match fuel with
  | O => []
  | S fuel' =>
      if n <? 10 then [digit n]
      else digitsOf fuel' (n / 10) ++ [digit (n mod 10)]
  end.

Definition toString (n : nat) : jsstring := digitsOf (S n) n.

(** [s.padStart(targetLength, pad)] for a pad of one character. *)
Definition padStart (s : jsstring) (targetLength : nat) (pad : char) : jsstring :=
  repeat pad (targetLength - length s) ++ s.

(** [formatTime]; [duration] counts seconds from 0. *)
Definition formatTime (seconds : nat) : jsstring :=
  let mins := seconds / 60 in
  let secs := seconds mod 60 in
  padStart (toString mins) 2 ZERO ++ [COLON] ++ padStart (toString secs) 2 ZERO.

(** The number that a string of decimal digits stands for, and the count of
    seconds that a displayed time stands for: the digits before the colon
    are minutes, the two after it seconds. *)
Definition valueFrom (acc : nat) (s : jsstring) : nat :=
  fold_left (fun a c => 10 * a + (N.to_nat c - 48)) s acc.

Definition readTime (shown : jsstring) : nat :=
  60 * valueFrom 0 (firstn (length shown - 3) shown)
  + valueFrom 0 (skipn (length shown - 2) shown).

(** [s.startsWith(search)] *)
Fixpoint startsWith (s search : jsstring) : bool :=
  match search with
  | [] => true
  | c :: search' =>
      match s with
      | [] => false
      | x :: s' => (x =? c)%N && startsWith s' search'
      end
  end.

(** What the code reads of a [File]. *)
Record File : Type := {
  fileName : jsstring;
  fileType : jsstring;
  fileBytes : list byte
}.

(** The state of the upload tab, and the alerts shown so far. *)
Record Upload : Type := {
  selectedFile : option File;
  language : Language;
  alerts : list string
}.

Definition invalidFile : string := "Please select a valid audio or video file.".

Definition acceptable (file : File) : bool :=
  startsWith (fileType file) (lit "audio/") || startsWith (fileType file) (lit "video/").

(** [handleFileChange], given [event.target.files]. *)
Definition handleFileChange (files : option (list File)) (u : Upload) : Upload :=
  match files with
  | Some (file :: _) =>
      if acceptable file
      then {| selectedFile := Some file; language := language u; alerts := alerts u |}
      else {| selectedFile := selectedFile u; language := language u;
              alerts := alerts u ++ [invalidFile] |}
  | _ => u
  end.

Definition clearFile (u : Upload) : Upload :=
  {| selectedFile := None; language := language u; alerts := alerts u |}.

Definition setLanguage (l : Language) (u : Upload) : Upload :=
  {| selectedFile := selectedFile u; language := l; alerts := alerts u |}.

(** [processFile]: the arguments of the call [onRecordingComplete], when it
    is made. *)
Definition processFile (u : Upload) : option (File * Language) :=
  match selectedFile u with
  | Some file => Some (file, language u)
  | None => None
  end.

(** What the user can do on the upload tab. *)
Inductive action : Type :=
| PickFiles (files : option (list File))
| ClearFile
| SetLanguage (l : Language).

Definition act (u : Upload) (a : action) : Upload :=
  match a with
  | PickFiles files => handleFileChange files u
  | ClearFile => clearFile u
  | SetLanguage l => setLanguage l u
  end.

(** The component starts with no file and the language [Mixed]. *)
Definition start : Upload :=
  {| selectedFile := None; language := Mixed; alerts := [] |}.

End Recorder.

(** ** The application: [handleRecordingComplete] and [handleReset] *)

Module App.
Import JS FileUtils Transcription Recorder.

(** The enumeration [AppState] of [types.ts]. *)
Inductive AppState : Type := IDLE | RECORDING | PROCESSING | COMPLETED | ERROR.

(** The three pieces of state of the component. *)
Record Model : Type := {
  appState : AppState;
  transcript : jsstring;
  errorMsg : option string
}.

Definition initial : Model :=
  {| appState := IDLE; transcript := []; errorMsg := None |}.

Definition processingIssue : string :=
  "We encountered an issue processing your audio. Please check your connection and try again.".

Definition setAppState (st : AppState) (m : Model) : Model :=
  {| appState := st; transcript := transcript m; errorMsg := errorMsg m |}.

Definition setTranscript (t : jsstring) (m : Model) : Model :=
  {| appState := appState m; transcript := t; errorMsg := errorMsg m |}.

Definition setErrorMsg (e : option string) (m : Model) : Model :=
  {| appState := appState m; transcript := transcript m; errorMsg := e |}.

Definition handleReset (m : Model) : Model :=
  setErrorMsg None (setTranscript [] (setAppState IDLE m)).

(** What is handed to [handleRecordingComplete]: the blob that the recorder
    built, or the file that was picked. *)
Inductive AudioBlob : Type :=
| Recorded (blobType : jsstring) (bytes : list byte)
| Uploaded (file : File).

(** What is to hold in every state: the transcript view is shown with a
    transcript, and the only error message is the fixed one. *)
Definition sound (m : Model) : Prop :=
  (appState m = COMPLETED -> transcript m <> []) /\
  (forall e, errorMsg m = Some e -> e = processingIssue).

Section Handlers.

(** [getMimeType] and [blobToBase64] of [utils/fileUtils] are not among the
    sources: what they answer is a parameter. *)
Variable getMimeType : jsstring.
Variable blobToBase64 : AudioBlob -> outcome jsstring.
Variable Service : Type.
Variable generateContent :
  Service -> TranscriptionRequest -> outcome TranscriptionResponse * Service.

(** [audioBlob instanceof File ? audioBlob.type : getMimeType()] *)
Definition mimeTypeOf (audioBlob : AudioBlob) : jsstring :=
  match audioBlob with
  | Uploaded file => fileType file
  | Recorded _ _ => getMimeType
  end.

(** [handleRecordingComplete] up to its [await]. *)
Definition begin (m : Model) : Model :=
  setErrorMsg None (setAppState PROCESSING m).

(** [handleRecordingComplete] after its [await], for what [transcribeAudio]
    gave. *)
Definition settle (r : outcome jsstring) (m : Model) : Model :=
  match r with
  | Return text => setAppState COMPLETED (setTranscript text m)
  | Throw _ => setAppState ERROR (setErrorMsg (Some processingIssue) m)
  end.

(** The whole handler, when nothing else happens during the [await]. *)
Definition handleRecordingComplete (audioBlob : AudioBlob) (language : Language)
           (m : Model) (s : Service) : Model * Service :=
  let m1 := begin m in
  let (r, s') :=
    transcribeAudio blobToBase64 generateContent audioBlob
                    (mimeTypeOf audioBlob) language s in
  (settle r m1, s').

(** One change of the state. The recorder component reports [RECORDING],
    [PROCESSING] or [ERROR] through [onStateChange]; a transcription begins;
    a transcription that was begun settles with what [transcribeAudio] gave
    for some blob and some state of the service; the user resets. *)
Inductive step : Model -> Model -> Prop :=
| step_recorder st m :
    In st [RECORDING; PROCESSING; ERROR] -> step m (setAppState st m)
| step_begin m : step m (begin m)
| step_settle m audioBlob language s :
    step m (settle (fst (transcribeAudio blobToBase64 generateContent audioBlob
                                         (mimeTypeOf audioBlob) language s)) m)
| step_reset m : step m (handleReset m).

Inductive reachable : Model -> Prop :=
| reach_initial : reachable initial
| reach_step m m' : reachable m -> step m m' -> reachable m'.

End Handlers.

End App.

(** ** The transcript view: [handleGenerateAudio] *)

Module Display.
Import JS FileUtils Segmenter Speech.

Definition failedAudio : string :=
  "Failed to generate audio. The text might be too long or the service is busy.".

Definition sampleRate : N := 24000%N.

Section View.

(** [createWavBlob] of [utils/fileUtils] and [URL.createObjectURL] are not
    among the sources: they are parameters. *)
Variable WavBlob : Type.
Variable Url : Type.
Variable createWavBlob : list byte -> N -> WavBlob.
Variable createObjectURL : WavBlob -> Url.

Variable Service : Type.
Variable generateContent :
  Service -> jsstring -> string -> outcome GenerateContentResponse * Service.
Variable decode : jsstring -> outcome (list byte).

(** The state of the audio panel, and the alerts shown so far. *)
Record View : Type := {
  isGeneratingAudio : bool;
  audioUrl : option Url;
  alerts : list string
}.

(** The state while [generateSpeech] is awaited. *)
Definition generating (v : View) : View :=
  {| isGeneratingAudio := true; audioUrl := None; alerts := alerts v |}.

(** [handleGenerateAudio]; [None] when [generateSpeech] never settles. *)
Definition handleGenerateAudio (fuel : nat) (transcript : jsstring)
           (selectedVoice : string) (v : View) (w : World Service)
  : option (View * World Service) :=
  if negb (truthy transcript) then Some (v, w)
  else
    let v1 := generating v in
    match generateSpeech generateContent decode fuel transcript selectedVoice w with
    | None => None
    | Some (Return pcmData, w') =>
        Some ({| isGeneratingAudio := false;
                 audioUrl := Some (createObjectURL (createWavBlob pcmData sampleRate));
                 alerts := alerts v1 |}, w')
    | Some (Throw _, w') =>
        Some ({| isGeneratingAudio := false;
                 audioUrl := audioUrl v1;
                 alerts := alerts v1 ++ [failedAudio] |}, w')
    end.

End View.

End Display.

(** ** The earlier [generateSpeech], one request for the whole text *)

Module SpeechSingle.
Import JS FileUtils Speech.

Definition failedSingle : string := "Failed to generate speech audio.".

Section Single.

Variable Service : Type.
Variable generateContent :
  Service -> jsstring -> string -> outcome GenerateContentResponse * Service.
Variable decode : jsstring -> outcome (list byte).

(** The body of the [try] block. *)
Definition singleBlock (text : jsstring) (voiceName : string) (w : World Service)
  : outcome (list byte) * World Service :=
  match await_generateContent generateContent w text voiceName with
  | (Throw e, w') => (Throw e, w')
  | (Return response, w') =>
      match inlineAudio response with
      | Some base64Audio =>
          if negb (truthy base64Audio) then (Throw "No audio content generated", w')
          else (decode base64Audio, w')
      | None => (Throw "No audio content generated", w')
      end
  end.

Definition generateSpeechSingle (text : jsstring) (voiceName : string)
           (w : World Service) : outcome (list byte) * World Service :=
  match singleBlock text voiceName w with
  | (Return audio, w') => (Return audio, w')
  | (Throw _, w') => (Throw failedSingle, w')
  end.

End Single.

End SpeechSingle.

(** ** Notions for stating what the segmenter keeps *)

Module Pieces.
Import JS.

(** [subseq a b]: [a] is [b] with some characters left out; nothing is
    reordered and nothing occurs more often than in [b]. *)
Inductive subseq : jsstring -> jsstring -> Prop :=
| subseq_nil : subseq [] []
| subseq_drop c a b : subseq a b -> subseq a (c :: b)
| subseq_keep c a b : subseq a b -> subseq (c :: a) (c :: b).

(** A string of white space only (the empty string included). *)
Definition blank (s : jsstring) : Prop :=
  Forall (fun c => isWhiteSpace c = true) s.

(** A string that [trim] leaves as it is. *)
Definition trimmed (s : jsstring) : Prop := trim s = s.

(** [factor r s]: [r] is a stretch of consecutive characters of [s]. *)
Definition factor (r s : jsstring) : Prop :=
  exists before after, s = before ++ r ++ after.

(** Somewhere in [s] a space is followed by 3000 characters none of which
    is a space. *)
Definition spaceThenLongRun (s : jsstring) : Prop :=
  exists run, factor (SPACE :: run) s /\
              length run = Segmenter.MAX_CHAR_LIMIT /\ ~ In SPACE run.

(** [greedy groups last]: a packing of sentence units into closed groups and
    a last, open one. Every group fits the budget, and a group was closed
    only because the unit that follows it would not fit any more. *)
Inductive greedy : list (list jsstring) -> list jsstring -> Prop :=
| greedy_open last :
    Segmenter.within (concat last) -> greedy [] last
| greedy_closed g groups last next :
    Segmenter.within (concat g) ->
    hd_error (concat groups ++ last) = Some next ->
    Segmenter.MAX_CHAR_LIMIT < length (concat g ++ next) ->
    greedy groups last ->
    greedy (g :: groups) last.

(** The same, as a test: some space of [s] is followed by 3000 characters
    none of which is a space. *)
Fixpoint longRunAfterSpace (s : jsstring) : bool :=
  match s with
  | [] => false
  | c :: s' =>
      ((c =? SPACE)%N
       && (length (firstn Segmenter.MAX_CHAR_LIMIT s') =? Segmenter.MAX_CHAR_LIMIT)
       && forallb (fun x => negb (x =? SPACE)%N) (firstn Segmenter.MAX_CHAR_LIMIT s'))
      || longRunAfterSpace s'
  end.

End Pieces.

(** ** Sample inputs *)

Module Samples.
Import JS Segmenter Speech.

(** 5000 times the letter a. *)
Definition longRun : jsstring := repeat (code "a") (5 * 1000).

(** A space, then 3000 times the letter a. *)
Definition spaceThenRun : jsstring := SPACE :: repeat (code "a") MAX_CHAR_LIMIT.

Definition versionNote : jsstring := lit "Version 2.5 is out.".

(** 2500 times the letter a, a full stop, 2499 times the letter a: 5000
    characters, none of them white space. *)
Definition dottedRun : jsstring :=
  repeat (code "a") 2500 ++ lit "." ++ repeat (code "a") 2499.

Definition greeting : jsstring := lit " Hello. World! ".

(** [Hello.\n\n\nWorld.] *)
Definition helloWorld : jsstring := lit "Hello." ++ [LF; LF; LF] ++ lit "World.".

(** Two sentences with 6005 spaces between them. *)
Definition wideGap : jsstring := lit "Hi." ++ repeat SPACE (6 * 1000 + 5) ++ lit "Bye.".

(** Three sentences of 2000 characters each, separated by a space. *)
Definition sentenceOf (letter : ascii) : jsstring :=
  repeat (code letter) 1999 ++ lit ". ".

Definition threeSentences : jsstring :=
  sentenceOf "a" ++ sentenceOf "b" ++ sentenceOf "c".

(** Base64 text: [n] times a group of four characters, then a last group. *)
Definition base64Of (group : string) (n : nat) (last : string) : jsstring :=
  concat (repeat (lit group) n) ++ lit last.

(** 100 bytes A, 250 bytes B and 50 bytes C, and their encodings. *)
Definition payloadA : list byte := repeat "A"%byte 100.
Definition payloadB : list byte := repeat "B"%byte 250.
Definition payloadC : list byte := repeat "C"%byte 50.

Definition encodedA : jsstring := base64Of "QUFB" 33 "QQ==".
Definition encodedB : jsstring := base64Of "QkJC" 83 "Qg==".
Definition encodedC : jsstring := base64Of "Q0ND" 16 "Q0M=".

Definition Script : Type := list (outcome GenerateContentResponse).

(** A world in which nothing has been asked of the scripted service yet. *)
Definition fresh (script : Script) : World Script :=
  {| remote := script; issued := [] |}.

(** The segments of [threeSentences], and a call for a segment. *)
Definition segmentOf (letter : ascii) : jsstring :=
  repeat (code letter) 1999 ++ lit ".".

Definition asked (text : jsstring) (reply : outcome GenerateContentResponse) : Call :=
  {| callText := text; callVoice := "Puck"; callReply := reply |}.

Definition unavailable : outcome GenerateContentResponse :=
  Throw "503 Service Unavailable".

(** A reply whose inline data is the empty string. *)
Definition silentReply : outcome GenerateContentResponse := audioReply [].

(** A run of [generateSpeech] against a script, with the default voice. *)
Abbreviation speak fuel text script :=
  (generateSpeech scripted base64ToUint8Array fuel text "Puck" (fresh script)).

(** Worlds after a run: what is left of the script, and the calls made. *)
Definition left (script : Script) (calls : list Call) : World Script :=
  {| remote := script; issued := calls |}.

Definition scriptABC : Script :=
  [audioReply encodedA; audioReply encodedB; audioReply encodedC].

Definition callsABC : list Call :=
  [asked (segmentOf "a") (audioReply encodedA);
   asked (segmentOf "b") (audioReply encodedB);
   asked (segmentOf "c") (audioReply encodedC)].

Definition scriptFailing : Script :=
  [audioReply encodedA; unavailable; audioReply encodedC].

Definition callsFailing : list Call :=
  [asked (segmentOf "a") (audioReply encodedA);
   asked (segmentOf "b") unavailable].

Definition scriptSilent : Script := [emptyReply; silentReply; emptyReply].

Definition callsSilent : list Call :=
  [asked (segmentOf "a") emptyReply;
   asked (segmentOf "b") silentReply;
   asked (segmentOf "c") emptyReply].

Definition scriptGap : Script := [audioReply encodedA; audioReply encodedC].

Definition callsGap : list Call :=
  [asked (lit "Hi.") (audioReply encodedA);
   asked (lit "Bye.") (audioReply encodedC)].

Definition scriptMixed : Script :=
  [audioReply encodedA; emptyReply; audioReply encodedC].

Definition callsMixed : list Call :=
  [asked (segmentOf "a") (audioReply encodedA);
   asked (segmentOf "b") emptyReply;
   asked (segmentOf "c") (audioReply encodedC)].

End Samples.

(** ** More sample inputs *)

Module MoreSamples.
Import JS Segmenter Speech Samples.

(** A thousand times [word ]: 5000 characters, no delimiter. *)
Definition prose : jsstring := concat (repeat (lit "word ") 1000).

(** 7000 times the letter a. *)
Definition longerRun : jsstring := repeat (code "a") (7 * 1000).

(** Two spaces, a line break and a space. *)
Definition blankText : jsstring := lit "  " ++ [LF] ++ lit " ".

(** Two sentences of 1600 characters each, separated by a space. *)
Definition halfOf (letter : ascii) : jsstring := repeat (code letter) 1599 ++ lit ".".

Definition twoSentences : jsstring :=
  halfOf "a" ++ [SPACE] ++ halfOf "b" ++ [SPACE].

(** An audio file, a text file, and a visit of the upload tab: the audio file
    is picked, then the text file, then the language is changed. *)
Definition talk : Recorder.File :=
  {| Recorder.fileName := lit "talk.mp3"; Recorder.fileType := lit "audio/mpeg";
     Recorder.fileBytes := ["I"%byte; "D"%byte; "3"%byte] |}.

Definition notes : Recorder.File :=
  {| Recorder.fileName := lit "notes.txt"; Recorder.fileType := lit "text/plain";
     Recorder.fileBytes := [] |}.

Definition visit : list Recorder.action :=
  [Recorder.PickFiles (Some [talk]); Recorder.PickFiles (Some [notes]);
   Recorder.SetLanguage Transcription.Urdu].

(** A transcription service that plays back a fixed list of replies, and a
    reader of blobs that gives a fixed base64 text. *)
Definition TranscriptScript : Type :=
  list (outcome Transcription.TranscriptionResponse).

Definition replay (script : TranscriptScript)
           (request : Transcription.TranscriptionRequest)
  : outcome Transcription.TranscriptionResponse * TranscriptScript :=
  match script with
  | [] => (Throw "no reply left", [])
  | reply :: rest => (reply, rest)
  end.

Definition readBlob (b : App.AudioBlob) : outcome jsstring := Return (lit "SUQz").

Definition heard : outcome Transcription.TranscriptionResponse :=
  Return {| Transcription.text := Some (lit "Good morning.") |}.

Definition nothingHeard : outcome Transcription.TranscriptionResponse :=
  Return {| Transcription.text := None |}.

(** Stand-ins for [createWavBlob] and [URL.createObjectURL]: the blob is the
    pair of the samples and the rate, the address is the blob. *)
Definition wavOf (pcm : list byte) (rate : N) : list byte * N := (pcm, rate).
Definition urlOf (blob : list byte * N) : list byte * N := blob.

End MoreSamples.

(** * Properties *)

(** ** Strings *)

Module JSFacts.
Import JS.

Lemma trimStart_length (s : jsstring) : length (trimStart s) <= length s.
Proof.
  induction s as [|c s IH]; simpl; [lia|].
  destruct (isWhiteSpace c); simpl; lia.
Qed.

Lemma trim_length (s : jsstring) : length (trim s) <= length s.
Proof.
  unfold trim, trimEnd. rewrite length_rev.
  etransitivity; [apply trimStart_length|].
  rewrite length_rev. apply trimStart_length.
Qed.

Lemma trimStart_noWhiteSpace (s : jsstring) : noWhiteSpace s -> trimStart s = s.
Proof.
  intros H. destruct H as [|c s Hc _]; simpl; [reflexivity|].
  now rewrite Hc.
Qed.

Lemma trim_noWhiteSpace (s : jsstring) : noWhiteSpace s -> trim s = s.
Proof.
  intros H. unfold trim, trimEnd.
  rewrite (trimStart_noWhiteSpace H).
  rewrite trimStart_noWhiteSpace; [apply rev_involutive|].
  now apply Forall_rev.
Qed.

Lemma noWhiteSpace_split (n : nat) (s : jsstring) :
  noWhiteSpace s -> noWhiteSpace (firstn n s) /\ noWhiteSpace (skipn n s).
Proof.
  intros H. apply Forall_app. unfold noWhiteSpace in H.
  now rewrite firstn_skipn.
Qed.

Lemma truthy_length (s : jsstring) : truthy s = true <-> 0 < length s.
Proof. destruct s; simpl; split; intros; try lia; congruence. Qed.

Lemma truthy_false (s : jsstring) : truthy s = false <-> s = [].
Proof. destruct s; simpl; split; intros; congruence. Qed.

(** [lastIndexOf] answers [-1] or an index not after [pos]. *)
Lemma lastIndexOf_range (c : char) (s : jsstring) (pos : nat) :
  (-1 <= lastIndexOf c s pos <= Z.of_nat pos)%Z.
Proof.
  revert pos; induction s as [|x s IH]; intros pos; simpl; [lia|].
  destruct pos as [|p].
  - simpl. destruct (x =? c)%N; lia.
  - specialize (IH p).
    destruct (Z.leb_spec 0 (lastIndexOf c s p)); [lia|].
    destruct (x =? c)%N; lia.
Qed.

(** The index it answers is inside the string and holds the character. *)
Lemma lastIndexOf_found (c : char) (s : jsstring) (pos : nat) :
  (0 <= lastIndexOf c s pos)%Z ->
  nth_error s (Z.to_nat (lastIndexOf c s pos)) = Some c.
Proof.
  revert pos; induction s as [|x s IH]; intros pos; simpl; [lia|].
  set (later := match pos with O => (-1)%Z | S p => lastIndexOf c s p end).
  destruct (Z.leb_spec 0 later) as [Hl|Hl].
  - intros _. destruct pos as [|p]; [subst later; lia|].
    subst later. replace (Z.to_nat (lastIndexOf c s p + 1)) with
      (S (Z.to_nat (lastIndexOf c s p))) by lia.
    simpl. now apply IH.
  - destruct (N.eqb_spec x c); [|lia].
    intros _. simpl. congruence.
Qed.

(** It answers [-1] exactly when the character does not occur up to [pos]. *)
Lemma lastIndexOf_absent (c : char) (s : jsstring) (pos : nat) :
  ~ In c (firstn (S pos) s) -> lastIndexOf c s pos = (-1)%Z.
Proof.
  revert pos; induction s as [|x s IH]; intros pos Hn; [reflexivity|].
  cbn [lastIndexOf].
  assert (Hx : (x =? c)%N = false).
  { apply N.eqb_neq. intros ->. apply Hn. now left. }
  assert (Hl : match pos with O => (-1)%Z | S p => lastIndexOf c s p end = (-1)%Z).
  { destruct pos as [|p]; [reflexivity|]. apply IH.
    intros Hin. apply Hn. right. exact Hin. }
  rewrite Hl, Hx. reflexivity.
Qed.

Lemma lastIndexOf_present (c : char) (s : jsstring) (pos : nat) :
  In c (firstn (S pos) s) -> (0 <= lastIndexOf c s pos)%Z.
Proof.
  revert pos; induction s as [|x s IH]; intros pos Hin; [destruct Hin|].
  cbn [lastIndexOf].
  set (later := match pos with O => (-1)%Z | S p => lastIndexOf c s p end).
  destruct (Z.leb_spec 0 later) as [Hl|Hl]; [lia|].
  destruct (N.eqb_spec x c) as [|Hne]; [lia|].
  exfalso. destruct Hin as [->|Hin]; [now apply Hne|].
  destruct pos as [|p]; [destruct Hin|].
  specialize (IH p Hin). subst later. lia.
Qed.

End JSFacts.

(** ** The matcher *)

Module RegexFacts.
Import JS Regex.

(** What a successful greedy [+] consumed: a non-empty run of the class,
    after which the continuation succeeded. *)
Lemma classPlus_sound cls s k x :
  classPlus cls s k = Some x ->
  exists m rest,
    s = m ++ rest /\ m <> [] /\ Forall (fun c => cls c = true) m /\
    k rest = Some x.
Proof.
  revert x; induction s as [|c s IH]; intros x; simpl; [discriminate|].
  destruct (cls c) eqn:Hc; [|discriminate].
  destruct (classPlus cls s k) as [y|] eqn:Hrec.
  - intros [= <-]. destruct (IH y eq_refl) as (m & rest & -> & _ & Hm & Hk).
    exists (c :: m), rest. repeat split; auto. discriminate.
  - intros Hk. exists [c], s. repeat split; auto. discriminate.
Qed.

(** A successful match leaves a suffix of its input. *)
Lemma run_sound r : forall s k x,
  run r s k = Some x ->
  exists m rest, s = m ++ rest /\ k rest = Some x.
Proof.
  induction r as [cls| |r1 IH1 r2 IH2|r1 IH1 r2 IH2]; intros s k x; simpl.
  - intros H. destruct (classPlus_sound _ _ _ H) as (m & rest & -> & _ & _ & Hk).
    now exists m, rest.
  - destruct s; [|discriminate]. intros Hk. now exists [], [].
  - intros H. destruct (IH1 _ _ _ H) as (m1 & s1 & -> & H2).
    destruct (IH2 _ _ _ H2) as (m2 & rest & -> & Hk).
    exists (m1 ++ m2), rest. now rewrite app_assoc.
  - destruct (run r1 s k) as [y|] eqn:H1.
    + intros [= <-]. eauto.
    + eauto.
Qed.

Lemma matchHere_suffix r s rest :
  matchHere r s = Some rest ->
  exists m, s = m ++ rest /\ firstn (length s - length rest) s = m.
Proof.
  unfold matchHere. intros H.
  destruct (run_sound _ _ _ H) as (m & rest' & -> & [= ->]).
  exists m. split; [reflexivity|].
  rewrite length_app, Nat.add_sub.
  rewrite firstn_app, Nat.sub_diag, firstn_all. simpl. apply app_nil_r.
Qed.

Lemma scan_cutFrom n r : forall s, cutFrom (scan n r s) s.
Proof.
  induction n as [|n IH]; intros s; simpl; [constructor|].
  destruct (matchHere r s) as [rest|] eqn:Hm.
  - destruct (matchHere_suffix _ _ Hm) as (m & Hs & ->).
    destruct m as [|c m].
    + simpl in Hs. subst rest. destruct s as [|c s].
      * apply (@cut_take [] [] []). constructor.
      * apply (@cut_take [] (c :: s)). apply cut_skip. apply IH.
    + rewrite Hs. apply cut_take. apply IH.
  - destruct s as [|c s]; [constructor|]. apply cut_skip, IH.
Qed.

Lemma cutFrom_length units s :
  cutFrom units s -> length (concat units) <= length s.
Proof.
  induction 1; simpl; try lia.
  rewrite !length_app. lia.
Qed.

Lemma cutFrom_unit_length units s :
  cutFrom units s -> Forall (fun u => length u <= length s) units.
Proof.
  induction 1; simpl.
  - constructor.
  - eapply Forall_impl; [|eassumption]. simpl. intros; lia.
  - constructor; [rewrite length_app; lia|].
    eapply Forall_impl; [|eassumption]. intros u Hu. rewrite length_app. simpl in Hu. lia.
Qed.

(** The bound [S (length s)] on the positions to visit is enough: a larger
    one gives the same units. *)
Lemma scan_enough r : forall n m s,
  length s < n -> length s < m -> scan n r s = scan m r s.
Proof.
  induction n as [|n IH]; intros m s Hn Hm; [lia|].
  destruct m as [|m]; [lia|]. simpl.
  destruct (matchHere r s) as [rest|] eqn:Hmatch.
  - destruct (matchHere_suffix _ _ Hmatch) as (u & Hs & ->).
    destruct u as [|c u].
    + destruct s as [|c s]; [reflexivity|].
      f_equal. apply IH; simpl in *; lia.
    + f_equal. apply IH; rewrite Hs, length_app in *; simpl in *; lia.
  - destruct s as [|c s]; [reflexivity|]. apply IH; simpl in *; lia.
Qed.

(** When the whole input is in the class and the continuation accepts the
    empty rest, the greedy [+] takes everything. *)
Lemma classPlus_whole cls s k x :
  Forall (fun c => cls c = true) s -> s <> [] -> k [] = Some x ->
  classPlus cls s k = Some x.
Proof.
  intros Hall Hne Hk. induction Hall as [|c s Hc Hall IH]; [congruence|].
  simpl. rewrite Hc. destruct s as [|c' s].
  - simpl. exact Hk.
  - rewrite IH; [reflexivity|discriminate].
Qed.

End RegexFacts.

(** ** The segmenter *)

Module SegmenterFacts.
Import JS Regex Segmenter JSFacts RegexFacts.

(** *** The sentence pattern on a text without delimiters *)

Lemma sentence_alternative_fails s k :
  plain s ->
  run (Seq (ClassPlus notDelim)
           (Seq (ClassPlus isDelim) (Alt (ClassPlus isWhiteSpace) Eos))) s k = None.
Proof.
  intros Hs. cbn [run].
  destruct (classPlus notDelim s _) as [x|] eqn:H; [|reflexivity].
  exfalso.
  destruct (classPlus_sound _ _ _ H) as (m & rest & -> & _ & _ & H2).
  destruct (classPlus_sound _ _ _ H2) as (m' & rest' & -> & Hne & Hm' & _).
  apply Forall_app in Hs as [_ Hs]. apply Forall_app in Hs as [Hs _].
  destruct m' as [|c m']; [congruence|].
  inversion Hs; subst. inversion Hm'; subst.
  unfold notDelim in *. destruct (isDelim c); discriminate.
Qed.

Lemma matchHere_plain s :
  plain s -> s <> [] -> matchHere sentencePattern s = Some [].
Proof.
  intros Hs Hne. unfold matchHere, sentencePattern. cbn [run].
  pose proof (sentence_alternative_fails (fun rest => Some rest) Hs) as H.
  cbn [run] in H. rewrite H.
  now apply classPlus_whole.
Qed.

Lemma rawSentences_plain s : plain s -> rawSentences s = [s].
Proof.
  intros Hs. unfold rawSentences, matchAll.
  destruct s as [|c s]; [reflexivity|].
  cbn [scan]. rewrite matchHere_plain by (auto; discriminate).
  cbn [length]. rewrite Nat.sub_0_r.
  change (S (length s)) with (length (c :: s)). rewrite firstn_all.
  destruct (length (c :: s)); reflexivity.
Qed.

(** *** One iteration of the hard split *)

Lemma breakAt_range remaining :
  (0 <= breakAt remaining <= Z.of_nat MAX_CHAR_LIMIT)%Z.
Proof.
  unfold breakAt.
  pose proof (lastIndexOf_range SPACE remaining MAX_CHAR_LIMIT).
  destruct (Z.eqb_spec (lastIndexOf SPACE remaining MAX_CHAR_LIMIT) (-1)); lia.
Qed.

Lemma hardSplit_exit fuel chunks currentChunk remaining :
  0 < length remaining -> within remaining ->
  hardSplit (S fuel) chunks currentChunk remaining = Some (chunks, remaining).
Proof.
  intros Hpos Hle. cbn [hardSplit].
  apply Nat.ltb_lt in Hpos. apply Nat.leb_le in Hle.
  now rewrite Hpos, Hle.
Qed.

Lemma hardSplit_step fuel chunks currentChunk remaining :
  MAX_CHAR_LIMIT < length remaining ->
  hardSplit (S fuel) chunks currentChunk remaining =
  hardSplit fuel
            (chunks ++ [trim (substring_to remaining (breakAt remaining))])
            currentChunk
            (substring_from remaining (breakAt remaining)).
Proof.
  intros Hlong. cbn [hardSplit].
  assert (Hpos : (0 <? length remaining) = true) by (apply Nat.ltb_lt; lia).
  assert (Hle : (length remaining <=? MAX_CHAR_LIMIT) = false)
    by (apply Nat.leb_gt; lia).
  now rewrite Hpos, Hle.
Qed.

Lemma hardSplit_empty fuel chunks currentChunk :
  hardSplit (S fuel) chunks currentChunk [] = Some (chunks, currentChunk).
Proof. reflexivity. Qed.

(** *** The budget *)

Lemma piece_within remaining :
  within (trim (substring_to remaining (breakAt remaining))).
Proof.
  unfold within, substring_to.
  etransitivity; [apply trim_length|].
  rewrite length_firstn. pose proof (breakAt_range remaining). lia.
Qed.

Lemma hardSplit_budget fuel : forall chunks currentChunk remaining chunks' currentChunk',
  Forall within chunks -> within currentChunk ->
  hardSplit fuel chunks currentChunk remaining = Some (chunks', currentChunk') ->
  Forall within chunks' /\ within currentChunk'.
Proof.
  induction fuel as [|fuel IH]; intros chunks cur rem chunks' cur' Hc Hcur;
    [discriminate|].
  destruct (Nat.le_gt_cases (length rem) MAX_CHAR_LIMIT) as [Hle|Hlong].
  - destruct rem as [|c rem].
    + rewrite hardSplit_empty. intros [= <- <-]. auto.
    + rewrite hardSplit_exit by (simpl; auto; lia). intros [= <- <-]. auto.
  - rewrite hardSplit_step by assumption. apply IH; auto.
    apply Forall_app. split; auto.
    constructor; [apply piece_within|constructor].
Qed.

Lemma forSentences_budget fuel sentences : forall chunks currentChunk chunks' currentChunk',
  Forall within chunks -> within currentChunk ->
  forSentences fuel sentences chunks currentChunk = Some (chunks', currentChunk') ->
  Forall within chunks' /\ within currentChunk'.
Proof.
  induction sentences as [|sentence rest IH]; intros chunks cur chunks' cur' Hc Hcur;
    cbn [forSentences].
  - intros [= <- <-]. auto.
  - destruct (Nat.ltb_spec MAX_CHAR_LIMIT (length sentence)) as [Hlong|Hshort].
    + destruct (hardSplit fuel _ _ sentence) as [[chunks1 cur1]|] eqn:Hsplit;
        [|discriminate].
      apply hardSplit_budget in Hsplit as [H1 H2].
      * now apply IH.
      * destruct (truthy cur); simpl; auto.
        apply Forall_app. split; auto. constructor; [|constructor].
        unfold within. etransitivity; [apply trim_length|apply Hcur].
      * destruct (truthy cur); simpl; auto. unfold within. simpl. lia.
    + destruct (Nat.leb_spec (length (cur ++ sentence)) MAX_CHAR_LIMIT) as [Hfit|Hover].
      * apply IH; auto.
      * apply IH; auto.
        apply Forall_app. split; auto. constructor; [|constructor].
        unfold within. etransitivity; [apply trim_length|apply Hcur].
Qed.

Lemma chunkText_budget fuel text chunks :
  chunkText fuel text = Some chunks -> Forall within chunks.
Proof.
  unfold chunkText.
  destruct (forSentences fuel (rawSentences text) [] []) as [[chunks' cur]|] eqn:H;
    [|discriminate].
  apply forSentences_budget in H as [H1 H2];
    [|constructor|unfold within; simpl; lia].
  intros [= <-]. destruct (truthy (trim cur)); auto.
  apply Forall_app. split; auto. constructor; [|constructor].
  unfold within. etransitivity; [apply trim_length|apply H2].
Qed.

(** *** Fuel *)

Lemma hardSplit_more fuel : forall fuel' chunks currentChunk remaining r,
  fuel <= fuel' ->
  hardSplit fuel chunks currentChunk remaining = Some r ->
  hardSplit fuel' chunks currentChunk remaining = Some r.
Proof.
  induction fuel as [|fuel IH]; intros fuel' chunks cur rem r Hle; [discriminate|].
  destruct fuel' as [|fuel']; [lia|].
  cbn [hardSplit].
  destruct (0 <? length rem); [|auto].
  destruct (length rem <=? MAX_CHAR_LIMIT); [auto|].
  apply IH. lia.
Qed.

Lemma hardSplit_deterministic fuel fuel' chunks currentChunk remaining r r' :
  hardSplit fuel chunks currentChunk remaining = Some r ->
  hardSplit fuel' chunks currentChunk remaining = Some r' ->
  r = r'.
Proof.
  intros H H'.
  apply (hardSplit_more (fuel' := Nat.max fuel fuel')) in H; [|lia].
  apply (hardSplit_more (fuel' := Nat.max fuel fuel')) in H'; [|lia].
  congruence.
Qed.

Lemma forSentences_more fuel fuel' sentences : forall chunks currentChunk r,
  fuel <= fuel' ->
  forSentences fuel sentences chunks currentChunk = Some r ->
  forSentences fuel' sentences chunks currentChunk = Some r.
Proof.
  induction sentences as [|sentence rest IH]; intros chunks cur r Hle;
    cbn [forSentences]; [auto|].
  destruct (MAX_CHAR_LIMIT <? length sentence).
  - destruct (hardSplit fuel _ _ sentence) as [[chunks1 cur1]|] eqn:Hsplit;
      [|discriminate].
    rewrite (hardSplit_more _ _ _ Hle Hsplit). now apply IH.
  - destruct (length (cur ++ sentence) <=? MAX_CHAR_LIMIT); now apply IH.
Qed.

Lemma chunkText_more fuel fuel' text chunks :
  fuel <= fuel' ->
  chunkText fuel text = Some chunks -> chunkText fuel' text = Some chunks.
Proof.
  intros Hle. unfold chunkText.
  destruct (forSentences fuel _ [] []) as [[chunks' cur]|] eqn:H; [|discriminate].
  now rewrite (forSentences_more _ _ _ Hle H).
Qed.

Lemma returns_deterministic text chunks chunks' :
  returns text chunks -> returns text chunks' -> chunks = chunks'.
Proof.
  intros [fuel H] [fuel' H'].
  apply (chunkText_more (fuel' := Nat.max fuel fuel')) in H; [|lia].
  apply (chunkText_more (fuel' := Nat.max fuel fuel')) in H'; [|lia].
  congruence.
Qed.

Lemma hangs_not_returns text chunks : hangs text -> ~ returns text chunks.
Proof. intros Hh [fuel H]. rewrite Hh in H. discriminate. Qed.

(** *** When the hard split makes no progress *)

(** An iteration that finds its only space at index 0 cuts nothing off. *)
Lemma hardSplit_stuck remaining :
  MAX_CHAR_LIMIT < length remaining -> breakAt remaining = 0%Z ->
  forall fuel chunks currentChunk,
    hardSplit fuel chunks currentChunk remaining = None.
Proof.
  intros Hlong Hzero. induction fuel as [|fuel IH]; intros chunks cur;
    [reflexivity|].
  rewrite hardSplit_step by assumption.
  rewrite Hzero. unfold substring_from. simpl skipn. apply IH.
Qed.

(** Any other iteration shortens [remaining]. *)
Lemma hardSplit_progress remaining :
  MAX_CHAR_LIMIT < length remaining -> breakAt remaining <> 0%Z ->
  length (substring_from remaining (breakAt remaining)) < length remaining.
Proof.
  intros Hlong Hnz. unfold substring_from. rewrite length_skipn.
  pose proof (breakAt_range remaining). lia.
Qed.

(** So the loop either is left within [length remaining] iterations or is
    never left. *)
Lemma hardSplit_decides n : forall remaining chunks currentChunk,
  length remaining <= n ->
  (exists r, hardSplit (S n) chunks currentChunk remaining = Some r) \/
  (forall fuel, hardSplit fuel chunks currentChunk remaining = None).
Proof.
  induction n as [|n IH]; intros rem chunks cur Hn.
  - destruct rem; [|simpl in Hn; lia]. left. eexists. apply hardSplit_empty.
  - destruct (Nat.le_gt_cases (length rem) MAX_CHAR_LIMIT) as [Hle|Hlong].
    + left. destruct rem as [|c rem].
      * eexists. apply hardSplit_empty.
      * eexists. apply hardSplit_exit; [simpl; lia|assumption].
    + destruct (Z.eq_dec (breakAt rem) 0) as [Hz|Hnz].
      * right. intros fuel. now apply hardSplit_stuck.
      * pose proof (hardSplit_progress rem Hlong Hnz) as Hshort.
        destruct (IH (substring_from rem (breakAt rem))
                     (chunks ++ [trim (substring_to rem (breakAt rem))]) cur)
          as [[r Hr]|Hnone]; [lia| |].
        -- left. exists r. now rewrite hardSplit_step.
        -- right. intros [|fuel]; [reflexivity|].
           rewrite hardSplit_step by assumption. apply Hnone.
Qed.

Lemma forSentences_decides fuel sentences :
  Forall (fun sentence => length sentence < fuel) sentences ->
  forall chunks currentChunk,
    (exists r, forSentences fuel sentences chunks currentChunk = Some r) \/
    (forall fuel', forSentences fuel' sentences chunks currentChunk = None).
Proof.
  induction 1 as [|sentence rest Hlen _ IH]; intros chunks cur.
  - left. eexists. reflexivity.
  - cbn [forSentences].
    destruct (MAX_CHAR_LIMIT <? length sentence).
    + set (flushed := if truthy cur then (chunks ++ [trim cur], [])
                      else (chunks, cur)).
      destruct fuel as [|n]; [lia|].
      destruct (@hardSplit_decides n sentence (fst flushed) (snd flushed))
        as [[[chunks1 cur1] Hr]|Hnone]; [lia| |].
      * rewrite Hr. destruct (IH chunks1 cur1) as [Hsome|Hnone]; [now left|].
        right. intros fuel'.
        destruct (hardSplit fuel' _ _ sentence) as [[chunks2 cur2]|] eqn:Hr';
          [|reflexivity].
        pose proof (hardSplit_deterministic _ _ _ _ _ Hr Hr') as [= <- <-].
        apply Hnone.
      * right. intros fuel'. now rewrite Hnone.
    + destruct (length (cur ++ sentence) <=? MAX_CHAR_LIMIT); apply IH.
Qed.

Lemma rawSentences_unit_length text :
  Forall (fun sentence => length sentence <= length text) (rawSentences text).
Proof.
  unfold rawSentences, matchAll.
  pose proof (cutFrom_unit_length (scan_cutFrom (S (length text)) sentencePattern text)) as H.
  destruct (scan _ _ _); [|exact H].
  constructor; [lia|constructor].
Qed.

(** Running with [S (length text)] iterations decides between the two. *)
Lemma chunkText_decides text :
  (exists chunks, chunkText (S (length text)) text = Some chunks) \/ hangs text.
Proof.
  unfold hangs, chunkText.
  destruct (@forSentences_decides (S (length text)) (rawSentences text))
    with (chunks := @nil jsstring) (currentChunk := @nil char)
    as [[[chunks cur] Hr]|Hnone].
  - eapply Forall_impl; [|apply rawSentences_unit_length].
    simpl. intros; lia.
  - left. rewrite Hr. eexists. reflexivity.
  - right. intros fuel. now rewrite Hnone.
Qed.

(** *** A text that fits in one segment *)

Lemma forSentences_fits fuel sentences : forall chunks currentChunk,
  within (currentChunk ++ concat sentences) ->
  forSentences fuel sentences chunks currentChunk =
  Some (chunks, currentChunk ++ concat sentences).
Proof.
  unfold within.
  induction sentences as [|sentence rest IH]; intros chunks cur Hfit;
    cbn [forSentences concat] in *.
  - now rewrite app_nil_r.
  - rewrite !length_app in Hfit.
    assert (H1 : (MAX_CHAR_LIMIT <? length sentence) = false)
      by (apply Nat.ltb_ge; lia).
    assert (H2 : (length (cur ++ sentence) <=? MAX_CHAR_LIMIT) = true)
      by (apply Nat.leb_le; rewrite length_app; lia).
    rewrite H1, H2, IH, app_assoc; [reflexivity|].
    rewrite !length_app. lia.
Qed.

Lemma chunkText_fits fuel text :
  within (concat (rawSentences text)) ->
  chunkText fuel text =
  Some (if truthy (trim (concat (rawSentences text)))
        then [trim (concat (rawSentences text))] else []).
Proof.
  intros Hfit. unfold chunkText.
  rewrite forSentences_fits by exact Hfit. reflexivity.
Qed.

(** *** One long run without spaces or delimiters *)

Lemma breakAt_no_space remaining :
  ~ In SPACE remaining -> breakAt remaining = Z.of_nat MAX_CHAR_LIMIT.
Proof.
  intros Hn. unfold breakAt. rewrite lastIndexOf_absent; [reflexivity|].
  intros Hin. apply Hn. rewrite <- (firstn_skipn (S MAX_CHAR_LIMIT) remaining).
  apply in_or_app. now left.
Qed.

Lemma noWhiteSpace_no_space s : noWhiteSpace s -> ~ In SPACE s.
Proof.
  intros Hs Hin. unfold noWhiteSpace in Hs. rewrite Forall_forall in Hs.
  specialize (Hs _ Hin). discriminate.
Qed.

Lemma chunkText_two_pieces fuel text :
  plain text -> noWhiteSpace text ->
  MAX_CHAR_LIMIT < length text <= 2 * MAX_CHAR_LIMIT -> 2 <= fuel ->
  chunkText fuel text =
  Some [firstn MAX_CHAR_LIMIT text; skipn MAX_CHAR_LIMIT text].
Proof.
  intros Hplain Hws [Hlong Hle] Hfuel.
  assert (Hpos : 0 < MAX_CHAR_LIMIT) by (unfold MAX_CHAR_LIMIT; lia).
  destruct fuel as [|[|fuel]]; try lia.
  unfold chunkText. rewrite (rawSentences_plain Hplain).
  cbn [forSentences].
  assert (H1 : (MAX_CHAR_LIMIT <? length text) = true) by (apply Nat.ltb_lt; lia).
  rewrite H1. cbn [truthy fst snd].
  rewrite hardSplit_step by assumption.
  rewrite (breakAt_no_space text (noWhiteSpace_no_space Hws)).
  unfold substring_to, substring_from. rewrite Nat2Z.id.
  destruct (noWhiteSpace_split MAX_CHAR_LIMIT Hws) as [Hfirst Hrest].
  rewrite hardSplit_exit.
  - rewrite !trim_noWhiteSpace by assumption.
    assert (Ht : truthy (skipn MAX_CHAR_LIMIT text) = true)
      by (apply truthy_length; rewrite length_skipn; lia).
    now rewrite Ht.
  - rewrite length_skipn. lia.
  - unfold within. rewrite length_skipn. lia.
Qed.

(** *** Further facts about the units and the hard split *)

(** The sentence units are pieces of the text, in order and without
    overlap; what lies between two units belongs to none. *)
Lemma rawSentences_cutFrom (text : jsstring) : cutFrom (rawSentences text) text.
Proof.
  unfold rawSentences, matchAll.
  pose proof (scan_cutFrom (S (length text)) sentencePattern text) as H.
  destruct (scan _ _ _); [|exact H].
  rewrite <- (app_nil_r text) at 2. apply cut_take. constructor.
Qed.

(** A unit that is longer than the budget, has a space at index 0 and no
    other space up to index 3000 is never split: the loop cuts an empty
    piece off it and goes on with the same string. *)
Lemma hangs_when_stuck (text : jsstring) :
  rawSentences text = [text] -> MAX_CHAR_LIMIT < length text ->
  breakAt text = 0%Z -> hangs text.
Proof.
  intros Hraw Hlong Hzero fuel. unfold chunkText. rewrite Hraw.
  cbn [forSentences]. apply Nat.ltb_lt in Hlong as Hlt. rewrite Hlt.
  now rewrite hardSplit_stuck.
Qed.

Lemma noWhiteSpace_repeat (c : char) (n : nat) :
  isWhiteSpace c = false -> noWhiteSpace (repeat c n).
Proof. intros H. induction n; simpl; constructor; auto. Qed.

Lemma plain_repeat (c : char) (n : nat) :
  notDelim c = true -> plain (repeat c n).
Proof. intros H. induction n; simpl; constructor; auto. Qed.

(** *** Texts on which the hard split always makes progress *)

Lemma cutFrom_incl units s :
  cutFrom units s -> Forall (fun u => incl u s) units.
Proof.
  induction 1 as [s|c s units _ IH|m rest units _ IH].
  - constructor.
  - eapply Forall_impl; [|exact IH]. intros u Hu x Hx. right. now apply Hu.
  - constructor; [apply incl_appl, incl_refl|].
    eapply Forall_impl; [|exact IH]. intros u Hu. now apply incl_appr.
Qed.

Lemma rawSentences_incl text : Forall (fun u => incl u text) (rawSentences text).
Proof. apply cutFrom_incl, rawSentences_cutFrom. Qed.

Lemma hardSplit_no_space n : forall remaining chunks currentChunk,
  length remaining <= n -> ~ In SPACE remaining ->
  exists r, hardSplit (S n) chunks currentChunk remaining = Some r.
Proof.
  induction n as [|n IH]; intros rem chunks cur Hn Hns.
  - destruct rem; [|simpl in Hn; lia]. eexists. apply hardSplit_empty.
  - destruct (Nat.le_gt_cases (length rem) MAX_CHAR_LIMIT) as [Hle|Hlong].
    + destruct rem as [|c rem].
      * eexists. apply hardSplit_empty.
      * eexists. apply hardSplit_exit; [simpl; lia|assumption].
    + rewrite hardSplit_step by assumption.
      rewrite (breakAt_no_space rem Hns).
      apply IH.
      * unfold substring_from. rewrite Nat2Z.id, length_skipn.
        unfold MAX_CHAR_LIMIT in *. lia.
      * intros Hin. apply Hns. unfold substring_from in Hin.
        rewrite <- (firstn_skipn (Z.to_nat (Z.of_nat MAX_CHAR_LIMIT)) rem).
        apply in_or_app. now right.
Qed.

Lemma forSentences_no_space fuel sentences :
  Forall (fun sentence => length sentence < fuel /\ ~ In SPACE sentence) sentences ->
  forall chunks currentChunk,
    exists r, forSentences fuel sentences chunks currentChunk = Some r.
Proof.
  induction 1 as [|sentence rest [Hlen Hns] _ IH]; intros chunks cur.
  - eexists. reflexivity.
  - cbn [forSentences].
    destruct (MAX_CHAR_LIMIT <? length sentence).
    + destruct fuel as [|n]; [lia|].
      destruct (@hardSplit_no_space n sentence
                  (fst (if truthy cur then (chunks ++ [trim cur], []) else (chunks, cur)))
                  (snd (if truthy cur then (chunks ++ [trim cur], []) else (chunks, cur))))
        as [[chunks1 cur1] Hr]; [lia|assumption|].
      rewrite Hr. apply IH.
    + destruct (length (cur ++ sentence) <=? MAX_CHAR_LIMIT); apply IH.
Qed.

(** A text without any space is always segmented. *)
Lemma chunkText_returns_without_space text :
  ~ In SPACE text -> exists chunks, returns text chunks.
Proof.
  intros Hns.
  destruct (@forSentences_no_space (S (length text)) (rawSentences text))
    with (chunks := @nil jsstring) (currentChunk := @nil char)
    as [[chunks cur] Hr].
  - pose proof (rawSentences_unit_length text) as Hlen.
    pose proof (rawSentences_incl text) as Hincl.
    rewrite Forall_forall in *. intros u Hu. split.
    + specialize (Hlen u Hu). simpl in Hlen. lia.
    + intros Hin. apply Hns. now apply (Hincl u Hu).
  - eexists. exists (S (length text)). unfold chunkText. rewrite Hr. reflexivity.
Qed.

End SegmenterFacts.

(** ** The reassembler *)

Module SpeechFacts.
Import JS Segmenter Speech JSFacts SegmenterFacts.

Lemma total_app ps qs : total (ps ++ qs) = total ps + total qs.
Proof. unfold total. now rewrite map_app, list_sum_app. Qed.

Lemma length_concat_total ps : length (concat ps) = total ps.
Proof.
  induction ps as [|p ps IH]; [reflexivity|].
  simpl. rewrite length_app, IH. reflexivity.
Qed.

(** Each payload sits in the concatenation at the sum of the sizes of the
    payloads before it. *)
Lemma range_concat ps : forall i p,
  nth_error ps i = Some p ->
  range (concat ps) (total (firstn i ps)) (length p) = p.
Proof.
  unfold range.
  induction ps as [|q ps IH]; intros i p; [destruct i; discriminate|].
  destruct i as [|i]; simpl.
  - intros [= ->]. rewrite firstn_app, Nat.sub_diag, firstn_all. simpl.
    apply app_nil_r.
  - intros Hp. change (total (q :: firstn i ps)) with (length q + total (firstn i ps)).
    rewrite skipn_app.
    replace (length q + total (firstn i ps) - length q) with (total (firstn i ps)) by lia.
    rewrite skipn_all2 by lia. simpl. now apply IH.
Qed.

Lemma Uint8Array_set_fits target source offset :
  offset + length source <= length target ->
  Uint8Array_set target source offset =
  Return (firstn offset target ++ source ++ skipn (offset + length source) target).
Proof.
  intros H. unfold Uint8Array_set. apply Nat.leb_le in H. now rewrite H.
Qed.

(** Copying the payloads one after the other from [offset] on overwrites
    that stretch of the buffer with their concatenation. *)
Lemma copyChunks_fits audioChunks : forall combinedAudio offset,
  offset + total audioChunks <= length combinedAudio ->
  copyChunks audioChunks combinedAudio offset =
  Return (firstn offset combinedAudio ++ concat audioChunks
            ++ skipn (offset + total audioChunks) combinedAudio).
Proof.
  induction audioChunks as [|chunk rest IH]; intros buf offset Hfit.
  - simpl. unfold total. simpl. rewrite Nat.add_0_r, firstn_skipn. reflexivity.
  - change (total (chunk :: rest)) with (length chunk + total rest) in *.
    cbn [copyChunks]. rewrite Uint8Array_set_fits by lia.
    set (buf' := firstn offset buf ++ chunk ++ skipn (offset + length chunk) buf).
    assert (Hoff : length (firstn offset buf) = offset)
      by (rewrite length_firstn; lia).
    assert (Hlen : length buf' = length buf).
    { unfold buf'. rewrite !length_app, Hoff, length_skipn. lia. }
    rewrite IH by lia.
    assert (Hfirst : firstn (offset + length chunk) buf' = firstn offset buf ++ chunk).
    { unfold buf'. rewrite app_assoc.
      rewrite firstn_app, length_app, Hoff.
      replace (offset + length chunk - (offset + length chunk)) with 0 by lia.
      rewrite firstn_all2 by (rewrite length_app; lia).
      simpl. apply app_nil_r. }
    assert (Hskip : skipn (offset + length chunk + total rest) buf' =
                    skipn (offset + (length chunk + total rest)) buf).
    { unfold buf'. rewrite app_assoc.
      rewrite skipn_app, length_app, Hoff.
      rewrite skipn_all2 by (rewrite length_app; lia).
      simpl. rewrite skipn_skipn. f_equal. lia. }
    rewrite Hfirst, Hskip. simpl concat.
    now rewrite <- !app_assoc.
Qed.

Lemma assemble_nonzero audioChunks totalLength :
  totalLength = total audioChunks -> totalLength <> 0 ->
  assemble audioChunks totalLength = Return (concat audioChunks).
Proof.
  intros -> Hnz. unfold assemble.
  apply Nat.eqb_neq in Hnz. rewrite Hnz.
  rewrite copyChunks_fits by (unfold Uint8Array_new; rewrite repeat_length; lia).
  simpl. rewrite skipn_all2 by (unfold Uint8Array_new; rewrite repeat_length; lia).
  now rewrite app_nil_r.
Qed.

Lemma assemble_zero audioChunks : assemble audioChunks 0 = Throw noAudio.
Proof. reflexivity. Qed.

Section Runs.

Variable Service : Type.
Variable generateContent :
  Service -> jsstring -> string -> outcome GenerateContentResponse * Service.
Variable decode : jsstring -> outcome (list byte).

Let World := World Service.
Local Abbreviation callOf := (callOf generateContent).
Local Abbreviation worldAfter := (worldAfter generateContent).
Local Abbreviation verdictOf := (verdictOf decode).
Local Abbreviation passed := (passed decode).
Local Abbreviation completed := (completed decode).
Local Abbreviation aborted := (aborted decode).

Lemma await_generateContent_eq (w : World) chunk voiceName :
  await_generateContent generateContent w chunk voiceName =
  (callReply (callOf w chunk voiceName), worldAfter w chunk voiceName).
Proof.
  unfold await_generateContent, worldAfter, callOf.
  destruct (generateContent (remote w) chunk voiceName). reflexivity.
Qed.

(** *** One segment *)

Lemma synthesize_blank voiceName chunk rest audioChunks totalLength (w : World) :
  spoken chunk = false ->
  synthesize generateContent decode voiceName (chunk :: rest) audioChunks totalLength w =
  synthesize generateContent decode voiceName rest audioChunks totalLength w.
Proof.
  unfold spoken. intros H. cbn [synthesize]. now rewrite H.
Qed.

Lemma synthesize_throw voiceName chunk rest audioChunks totalLength (w : World) e :
  spoken chunk = true ->
  callReply (callOf w chunk voiceName) = Throw e ->
  synthesize generateContent decode voiceName (chunk :: rest) audioChunks totalLength w =
  (Throw e, worldAfter w chunk voiceName).
Proof.
  unfold spoken. intros H Hr. cbn [synthesize].
  now rewrite H, await_generateContent_eq, Hr.
Qed.

Lemma synthesize_no_payload voiceName chunk rest audioChunks totalLength (w : World) response :
  spoken chunk = true ->
  callReply (callOf w chunk voiceName) = Return response ->
  inlineAudio response = None \/ inlineAudio response = Some [] ->
  synthesize generateContent decode voiceName (chunk :: rest) audioChunks totalLength w =
  synthesize generateContent decode voiceName rest audioChunks totalLength
             (worldAfter w chunk voiceName).
Proof.
  unfold spoken. intros H Hr Hd. cbn [synthesize].
  rewrite H, await_generateContent_eq, Hr. cbn [negb].
  destruct Hd as [-> | ->]; reflexivity.
Qed.

Lemma synthesize_payload voiceName chunk rest audioChunks totalLength (w : World)
      response base64Audio audioData :
  spoken chunk = true ->
  callReply (callOf w chunk voiceName) = Return response ->
  inlineAudio response = Some base64Audio -> truthy base64Audio = true ->
  decode base64Audio = Return audioData ->
  synthesize generateContent decode voiceName (chunk :: rest) audioChunks totalLength w =
  synthesize generateContent decode voiceName rest (audioChunks ++ [audioData])
             (totalLength + length audioData) (worldAfter w chunk voiceName).
Proof.
  unfold spoken. intros H Hr Hd Ht Hdec. cbn [synthesize].
  now rewrite H, await_generateContent_eq, Hr, Hd, Ht, Hdec.
Qed.

Lemma synthesize_undecodable voiceName chunk rest audioChunks totalLength (w : World)
      response base64Audio e :
  spoken chunk = true ->
  callReply (callOf w chunk voiceName) = Return response ->
  inlineAudio response = Some base64Audio -> truthy base64Audio = true ->
  decode base64Audio = Throw e ->
  synthesize generateContent decode voiceName (chunk :: rest) audioChunks totalLength w =
  (Throw e, worldAfter w chunk voiceName).
Proof.
  unfold spoken. intros H Hr Hd Ht Hdec. cbn [synthesize].
  now rewrite H, await_generateContent_eq, Hr, Hd, Ht, Hdec.
Qed.

(** *** A whole run of the first loop *)

Lemma passed_not_threw c : passed c -> threw c = false.
Proof.
  unfold passed, verdictOf, threw. destruct (callReply c); [reflexivity|discriminate].
Qed.

Lemma synthesize_head voiceName chunk rest audioChunks totalLength (w : World) :
  spoken chunk = true ->
  let c := callOf w chunk voiceName in
  synthesize generateContent decode voiceName (chunk :: rest) audioChunks totalLength w =
  match verdictOf c with
  | Threw e | Undecodable e => (Throw e, worldAfter w chunk voiceName)
  | Passed =>
      synthesize generateContent decode voiceName rest
                 (audioChunks ++ payloadOf decode c)
                 (totalLength + total (payloadOf decode c))
                 (worldAfter w chunk voiceName)
  end.
Proof.
  intros Hs c. unfold verdictOf, payloadOf.
  destruct (callReply c) as [response|e] eqn:Hr.
  - destruct (inlineAudio response) as [base64Audio|] eqn:Hd.
    + destruct (truthy base64Audio) eqn:Ht.
      * destruct (decode base64Audio) as [audioData|e] eqn:Hdec.
        -- erewrite synthesize_payload by eassumption.
           unfold total. simpl. now rewrite Nat.add_0_r.
        -- erewrite synthesize_undecodable by eassumption. reflexivity.
      * apply truthy_false in Ht. subst base64Audio.
        erewrite synthesize_no_payload by eauto.
        unfold total. simpl. now rewrite app_nil_r, Nat.add_0_r.
    + erewrite synthesize_no_payload by eauto.
      unfold total. simpl. now rewrite app_nil_r, Nat.add_0_r.
  - erewrite synthesize_throw by eassumption. reflexivity.
Qed.

Lemma payloads_cons c calls :
  payloads decode (c :: calls) = payloadOf decode c ++ payloads decode calls.
Proof. reflexivity. Qed.

(** A run that completes the loop called the service once for every spoken
    segment, in order; every call went through; the accumulators grew by
    the payloads of those calls, in order. *)
Lemma synthesize_returns voiceName textChunks :
  forall audioChunks totalLength (w : World) audioChunks' totalLength' w',
    synthesize generateContent decode voiceName textChunks audioChunks totalLength w =
    (Return (audioChunks', totalLength'), w') ->
    exists calls,
      issued w' = issued w ++ calls /\
      map (@callText) calls = filter spoken textChunks /\
      Forall passed calls /\
      audioChunks' = audioChunks ++ payloads decode calls /\
      totalLength' = totalLength + total (payloads decode calls).
Proof.
  induction textChunks as [|chunk rest IH]; intros acc tot w acc' tot' w' H.
  - cbn [synthesize] in H. injection H as <- <- <-.
    exists []. cbn. rewrite !app_nil_r. unfold total. simpl.
    repeat split; auto.
  - destruct (spoken chunk) eqn:Hs.
    + rewrite synthesize_head in H by assumption.
      destruct (verdictOf (callOf w chunk voiceName)) eqn:Hv; try discriminate.
      apply IH in H as (calls & Hi & Ht & Hp & Ha & Hl).
      exists (callOf w chunk voiceName :: calls).
      cbn [filter]. rewrite Hs. rewrite payloads_cons, total_app.
      repeat split.
      * rewrite Hi. cbn [worldAfter issued]. now rewrite <- app_assoc.
      * cbn [map]. now rewrite Ht.
      * now constructor.
      * rewrite Ha. now rewrite <- app_assoc.
      * lia.
    + rewrite synthesize_blank in H by assumption.
      apply IH in H as (calls & Hi & Ht & Hrest).
      exists calls. cbn [filter]. rewrite Hs. auto.
Qed.

(** A run that leaves the loop by an exception stopped at the call that
    failed: the calls before it went through, it is the last one, and the
    spoken segments after it were not sent. *)
Lemma synthesize_throws voiceName textChunks :
  forall audioChunks totalLength (w : World) e w',
    synthesize generateContent decode voiceName textChunks audioChunks totalLength w =
    (Throw e, w') ->
    exists before last unsent,
      issued w' = issued w ++ before ++ [last] /\
      filter spoken textChunks = map (@callText) (before ++ [last]) ++ unsent /\
      Forall passed before /\
      (verdictOf last = Threw e \/ verdictOf last = Undecodable e).
Proof.
  induction textChunks as [|chunk rest IH]; intros acc tot w e w' H.
  - discriminate.
  - destruct (spoken chunk) eqn:Hs.
    + rewrite synthesize_head in H by assumption.
      cbn [filter]. rewrite Hs.
      destruct (verdictOf (callOf w chunk voiceName)) as [e'|e'|] eqn:Hv.
      * injection H as <- <-.
        exists [], (callOf w chunk voiceName), (filter spoken rest).
        repeat split; auto.
      * injection H as <- <-.
        exists [], (callOf w chunk voiceName), (filter spoken rest).
        repeat split; auto.
      * apply IH in H as (before & last & unsent & Hi & Ht & Hp & Hl).
        exists (callOf w chunk voiceName :: before), last, unsent.
        repeat split; auto.
        -- rewrite Hi. cbn [worldAfter issued]. now rewrite <- app_assoc.
        -- rewrite Ht. reflexivity.
    + rewrite synthesize_blank in H by assumption.
      apply IH in H as (before & last & unsent & Hi & Ht & Hrest).
      exists before, last, unsent. cbn [filter]. rewrite Hs. auto.
Qed.

(** *** A whole run of the [try] block *)

Lemma tryBlock_run fuel text voiceName (w w' : World) r :
  tryBlock generateContent decode fuel text voiceName w = Some (r, w') ->
  exists textChunks calls,
    chunkText fuel text = Some textChunks /\
    issued w' = issued w ++ calls /\
    (completed textChunks calls r \/ aborted textChunks calls r).
Proof.
  unfold tryBlock.
  destruct (chunkText fuel text) as [textChunks|]; [|discriminate].
  destruct (synthesize _ _ _ _ _ _ _) as [[[acc tot]|e] w1] eqn:Hloop;
    intros [= <- <-].
  - apply synthesize_returns in Hloop as (calls & Hi & Ht & Hp & Ha & Hl).
    simpl in Ha, Hl. subst acc tot.
    exists textChunks, calls. repeat split; auto. left. repeat split; auto.
    destruct (Nat.eqb_spec (total (payloads decode calls)) 0) as [Hz|Hnz].
    + rewrite Hz. reflexivity.
    + now apply assemble_nonzero.
  - apply synthesize_throws in Hloop as (before & last & unsent & Hi & Ht & Hp & Hl).
    exists textChunks, (before ++ [last]). repeat split; auto.
    right. exists before, last, unsent, e. auto.
Qed.

Lemma generateSpeech_tryBlock fuel text voiceName (w w' : World) r :
  generateSpeech generateContent decode fuel text voiceName w = Some (r, w') ->
  exists r0,
    tryBlock generateContent decode fuel text voiceName w = Some (r0, w') /\
    r = match r0 with
        | Return combinedAudio => Return combinedAudio
        | Throw _ => Throw failedToGenerate
        end.
Proof.
  unfold generateSpeech.
  destruct (tryBlock _ _ _ _ _ _) as [[[buf|e] w1]|]; intros [= <- <-];
    eexists; split; reflexivity.
Qed.

Lemma completed_result textChunks calls r :
  completed textChunks calls r ->
  match r with
  | Return combinedAudio =>
      combinedAudio = concat (payloads decode calls) /\
      total (payloads decode calls) <> 0
  | Throw e => e = noAudio /\ total (payloads decode calls) = 0
  end.
Proof.
  intros (_ & _ & ->).
  destruct (Nat.eqb_spec (total (payloads decode calls)) 0); auto.
Qed.

Lemma threw_not_passed c : threw c = true -> ~ passed c.
Proof.
  unfold Speech.passed, Speech.verdictOf, threw.
  destruct (callReply c); [discriminate|]. intros _ H. discriminate.
Qed.

Lemma failed_not_passed c e :
  verdictOf c = Threw e \/ verdictOf c = Undecodable e -> ~ passed c.
Proof. unfold Speech.passed. intros [H|H] Hp; rewrite H in Hp; discriminate. Qed.

(** In an aborted run the call that failed is the last one. *)
Lemma aborted_last textChunks calls r c :
  aborted textChunks calls r -> In c calls -> ~ passed c ->
  exists before, calls = before ++ [c] /\ Forall passed before.
Proof.
  intros (before & last & unsent & e & -> & Hp & _) Hin Hnp.
  apply in_app_or in Hin as [Hin|[<-|[]]].
  - rewrite Forall_forall in Hp. elim Hnp. now apply Hp.
  - now exists before.
Qed.

(** A reply without inline audio goes through and contributes nothing. *)
Lemma empty_reply_passed c response :
  callReply c = Return response ->
  inlineAudio response = None \/ inlineAudio response = Some [] ->
  passed c /\ payloadOf decode c = [].
Proof.
  unfold Speech.passed, Speech.verdictOf, payloadOf.
  intros -> [-> | ->]; auto.
Qed.

End Runs.

End SpeechFacts.

(** * The claims of the specification *)

Import JS Regex Segmenter Speech Samples.
Import JSFacts RegexFacts SegmenterFacts SpeechFacts.

(** ** Segmenter *)

(** C1. Every segment that [chunkText] returns is at most 3000 characters
    long, whatever the input text. *)
Theorem chunkText_within_budget (text : jsstring) (chunks : list jsstring) :
  returns text chunks ->
  Forall (fun segment => length segment <= 3000) chunks.
Proof.
  intros [fuel H]. exact (chunkText_budget _ _ H).
Qed.

Lemma chunkText_within_budget_witness :
  returns longRun [firstn 3000 longRun; skipn 3000 longRun] /\
  Forall (fun segment => length segment <= 3000)
         [firstn 3000 longRun; skipn 3000 longRun].
Proof.
  assert (H : returns longRun [firstn 3000 longRun; skipn 3000 longRun])
    by (exists 2; vm_compute; reflexivity).
  split; [exact H|].
  exact (chunkText_within_budget H).
Defined.

(** C2. The sentence units do not always concatenate back to the text: a
    delimiter that is followed by neither white space nor the end of the
    text ends no unit, and the text up to it is in no unit. Of
    [Version 2.5 is out.] only [5 is out.] becomes a unit and a segment. *)
Theorem rawSentences_drops_text :
  rawSentences versionNote = [lit "5 is out."] /\
  concat (rawSentences versionNote) <> versionNote /\
  forall fuel, chunkText fuel versionNote = Some [lit "5 is out."].
Proof.
  assert (H : rawSentences versionNote = [lit "5 is out."])
    by (vm_compute; reflexivity).
  split; [exact H|]. split.
  - rewrite H. vm_compute. discriminate.
  - intros fuel. rewrite chunkText_fits.
    + rewrite H. vm_compute. reflexivity.
    + rewrite H. apply Nat.leb_le. vm_compute. reflexivity.
Qed.

(** C3. [chunkText] does not return on every input: on a space followed by
    3000 letters the hard split finds its break at index 0, leaves
    [remaining] as it was, and is never left. *)
Theorem chunkText_hangs_on_leading_space :
  rawSentences spaceThenRun = [spaceThenRun] /\
  breakAt spaceThenRun = 0%Z /\
  substring_from spaceThenRun (breakAt spaceThenRun) = spaceThenRun /\
  hangs spaceThenRun.
Proof.
  assert (Hraw : rawSentences spaceThenRun = [spaceThenRun])
    by (vm_compute; reflexivity).
  assert (Hzero : breakAt spaceThenRun = 0%Z) by (vm_compute; reflexivity).
  assert (Hlong : MAX_CHAR_LIMIT < length spaceThenRun).
  { unfold spaceThenRun. cbn [length]. rewrite repeat_length. lia. }
  split; [exact Hraw|]. split; [exact Hzero|]. split.
  - rewrite Hzero. reflexivity.
  - now apply hangs_when_stuck.
Qed.

(** What does hold of the hard split of one long run: a run of more than
    3000 and at most 2 * 3000 characters, none of them white space or a
    sentence delimiter, is returned as exactly two segments, its first 3000
    characters and the rest. This covers 5000 times the letter a. *)
Theorem chunkText_single_run (text : jsstring) :
  noWhiteSpace text -> plain text ->
  3000 < length text <= 2 * 3000 ->
  returns text [firstn 3000 text; skipn 3000 text] /\
  length (firstn 3000 text) = 3000 /\
  length (skipn 3000 text) = length text - 3000.
Proof.
  intros Hws Hplain Hlen. split; [|split].
  - exists 2. apply chunkText_two_pieces; auto; unfold MAX_CHAR_LIMIT; lia.
  - rewrite length_firstn. lia.
  - apply length_skipn.
Qed.

Lemma chunkText_single_run_witness :
  returns longRun [repeat (code "a") 3000; repeat (code "a") 2000] /\
  length (repeat (code "a") 3000) = 3000 /\
  length (repeat (code "a") 2000) = 2000.
Proof.
  assert (H1 : noWhiteSpace longRun) by (apply noWhiteSpace_repeat; reflexivity).
  assert (H2 : plain longRun) by (apply plain_repeat; reflexivity).
  assert (H3 : 3000 < length longRun <= 2 * 3000)
    by (unfold longRun; rewrite repeat_length; split; vm_compute; lia).
  pose proof (chunkText_single_run H1 H2 H3) as H.
  assert (Ha : firstn 3000 longRun = repeat (code "a") 3000)
    by (vm_compute; reflexivity).
  assert (Hb : skipn 3000 longRun = repeat (code "a") 2000)
    by (vm_compute; reflexivity).
  assert (Hc : length longRun - 3000 = 2000)
    by (vm_compute; reflexivity).
  rewrite Ha, Hb, Hc in H. exact H.
Defined.

(** C4. A run of characters without white space is not always cut in two
    at 3000: when it holds a full stop, what comes before the last full stop
    is in no sentence unit. Of 2500 letters, a full stop and 2499 letters
    (5000 characters, no white space) the only unit is the 2499 letters after
    the full stop, and they are returned as the one segment. *)
Theorem chunkText_dotted_run_one_segment :
  noWhiteSpace dottedRun /\
  length dottedRun = 5 * 1000 /\
  rawSentences dottedRun = [repeat (code "a") 2499] /\
  (forall fuel, chunkText fuel dottedRun = Some [repeat (code "a") 2499]) /\
  ~ returns dottedRun [firstn 3000 dottedRun; skipn 3000 dottedRun].
Proof.
  assert (Hraw : rawSentences dottedRun = [repeat (code "a") 2499])
    by (vm_compute; reflexivity).
  assert (Hall : forall fuel, chunkText fuel dottedRun = Some [repeat (code "a") 2499]).
  { intros fuel. rewrite chunkText_fits; rewrite Hraw.
    - cbn [concat]. rewrite app_nil_r.
      rewrite trim_noWhiteSpace by (apply noWhiteSpace_repeat; reflexivity).
      reflexivity.
    - unfold within. cbn [concat]. rewrite app_nil_r, repeat_length.
      unfold MAX_CHAR_LIMIT. lia. }
  split; [|split; [|split; [|split]]].
  - unfold dottedRun. apply Forall_app. split.
    + apply noWhiteSpace_repeat. reflexivity.
    + apply Forall_app. split.
      * repeat constructor.
      * apply noWhiteSpace_repeat. reflexivity.
  - unfold dottedRun. rewrite !length_app, !repeat_length. reflexivity.
  - exact Hraw.
  - exact Hall.
  - intros [fuel H]. rewrite Hall in H. discriminate.
Qed.

(** C8, as stated, fails on the empty text: no segment is returned for it,
    not one empty segment. *)
Lemma chunkText_empty_text_no_segment :
  length (@nil char) <= 3000 /\
  returns [] [] /\ ~ returns [] [trim []].
Proof.
  assert (H : returns [] []) by (exists 0; reflexivity).
  split; [simpl; lia|]. split; [exact H|].
  intros H'. pose proof (returns_deterministic H H'). discriminate.
Qed.

(** C8, amended. A text of at most 3000 characters whose sentence units
    concatenate back to it is returned as one segment, the trimmed text,
    when that is not empty, and as no segment when it is. *)
Theorem chunkText_short_text (text : jsstring) :
  length text <= 3000 -> concat (rawSentences text) = text ->
  forall fuel,
    chunkText fuel text = Some (if truthy (trim text) then [trim text] else []).
Proof.
  intros Hlen Hcat fuel. rewrite chunkText_fits; rewrite Hcat; auto.
Qed.

Lemma chunkText_short_text_witness :
  chunkText 0 greeting = Some [lit "Hello. World!"].
Proof.
  assert (H1 : length greeting <= 3000) by (apply Nat.leb_le; vm_compute; reflexivity).
  assert (H2 : concat (rawSentences greeting) = greeting) by (vm_compute; reflexivity).
  exact (chunkText_short_text H1 H2 0).
Defined.

(** ** Synthesizer and reassembler *)

Section SpeechClaims.

Variable Service : Type.
Variable generateContent :
  Service -> jsstring -> string -> outcome GenerateContentResponse * Service.
Variable decode : jsstring -> outcome (list byte).

Local Abbreviation generateSpeech := (generateSpeech generateContent decode).
Local Abbreviation tryBlock := (tryBlock generateContent decode).

(** C5. The buffer that [generateSpeech] returns is the concatenation of the
    payloads of its calls, in call order: its length is the sum of their
    lengths, and payload [i] fills the range that starts at the sum of the
    lengths of the payloads before it. *)
Theorem generateSpeech_concatenates fuel text voiceName (w w' : World Service)
        combinedAudio calls :
  generateSpeech fuel text voiceName w = Some (Return combinedAudio, w') ->
  issued w' = issued w ++ calls ->
  combinedAudio = concat (payloads decode calls) /\
  length combinedAudio = total (payloads decode calls) /\
  forall i payload,
    nth_error (payloads decode calls) i = Some payload ->
    range combinedAudio (total (firstn i (payloads decode calls))) (length payload)
    = payload.
Proof.
  intros Hrun Hcalls.
  apply generateSpeech_tryBlock in Hrun as (r0 & Htry & Hr).
  apply tryBlock_run in Htry as (textChunks & calls' & _ & Hi & Hshape).
  rewrite Hi in Hcalls. apply app_inv_head in Hcalls. subst calls'.
  assert (Hcat : combinedAudio = concat (payloads decode calls)).
  { destruct Hshape as [Hc|(before & last & unsent & e & _ & _ & _ & _ & ->)];
      [|discriminate].
    apply completed_result in Hc. destruct r0; [|discriminate].
    injection Hr as ->. apply Hc. }
  subst combinedAudio. split; [reflexivity|]. split.
  - apply length_concat_total.
  - intros i payload. apply range_concat.
Qed.

(** C6. A call that throws is the last call of the run: the segments after
    it are not sent, it is not sent again, and [generateSpeech] throws
    instead of returning a buffer. *)
Theorem generateSpeech_stops_at_first_failure fuel text voiceName
        (w w' : World Service) r calls failed :
  generateSpeech fuel text voiceName w = Some (r, w') ->
  issued w' = issued w ++ calls ->
  In failed calls -> threw failed = true ->
  r = Throw failedToGenerate /\
  exists before textChunks unsent,
    calls = before ++ [failed] /\
    Forall (fun c => threw c = false) before /\
    chunkText fuel text = Some textChunks /\
    filter spoken textChunks = map (@callText) calls ++ unsent.
Proof.
  intros Hrun Hcalls Hin Hthrew.
  apply generateSpeech_tryBlock in Hrun as (r0 & Htry & Hr).
  apply tryBlock_run in Htry as (textChunks & calls' & Hchunks & Hi & Hshape).
  rewrite Hi in Hcalls. apply app_inv_head in Hcalls. subst calls'.
  pose proof (@threw_not_passed decode _ Hthrew) as Hnp.
  destruct Hshape as [(Hp & _)|Hab].
  - rewrite Forall_forall in Hp. elim Hnp. now apply Hp.
  - destruct (aborted_last Hab Hin Hnp) as (before & Hlast & Hbefore).
    destruct Hab as (_ & _ & unsent & e & _ & _ & _ & Hsent & ->).
    split; [exact Hr|].
    exists before, textChunks, unsent. repeat split; auto.
    eapply Forall_impl; [|exact Hbefore]. apply passed_not_threw.
Qed.

(** C7. [generateSpeech] never returns an empty buffer: when the payloads of
    a run add up to zero bytes it throws, and a buffer it returns has a
    length greater than zero. When all calls went through, what is thrown
    inside the [try] block is the "no audio" error. *)
Theorem generateSpeech_never_returns_empty fuel text voiceName
        (w w' : World Service) r calls :
  generateSpeech fuel text voiceName w = Some (r, w') ->
  issued w' = issued w ++ calls ->
  (total (payloads decode calls) = 0 -> r = Throw failedToGenerate) /\
  (forall combinedAudio, r = Return combinedAudio -> 0 < length combinedAudio) /\
  (Forall (passed decode) calls -> total (payloads decode calls) = 0 ->
   tryBlock fuel text voiceName w = Some (Throw noAudio, w')).
Proof.
  intros Hrun Hcalls.
  apply generateSpeech_tryBlock in Hrun as (r0 & Htry & Hr).
  pose proof Htry as Htry0.
  apply tryBlock_run in Htry as (textChunks & calls' & _ & Hi & Hshape).
  rewrite Hi in Hcalls. apply app_inv_head in Hcalls. subst calls'.
  destruct Hshape as [Hc|Hab].
  - apply completed_result in Hc. destruct r0 as [buf|e].
    + destruct Hc as [-> Hnz]. subst r. split; [intros; lia|]. split.
      * intros buf [= <-]. rewrite length_concat_total. lia.
      * intros; lia.
    + destruct Hc as [-> Hz]. subst r. split; [reflexivity|]. split.
      * discriminate.
      * intros _ _. exact Htry0.
  - pose proof Hab as (before & last & unsent & e & Hlast & _ & Hfail & _ & ->).
    subst r. split; [reflexivity|]. split; [discriminate|].
    intros Hp _. exfalso. rewrite Hlast in Hp.
    apply Forall_app in Hp as [_ Hp]. inversion Hp; subst.
    eapply failed_not_passed; eauto.
Qed.

(** C9. The calls of a run are made for the spoken segments only, one call
    per segment and in order, so a segment that is empty after trimming gets
    no call; and the buffer returned holds the payloads of those calls and
    nothing else. *)
Theorem blank_segments_are_not_synthesized fuel text voiceName
        (w w' : World Service) r calls :
  generateSpeech fuel text voiceName w = Some (r, w') ->
  issued w' = issued w ++ calls ->
  Forall (fun c => truthy (trim (callText c)) = true) calls /\
  (exists textChunks unsent,
      chunkText fuel text = Some textChunks /\
      filter spoken textChunks = map (@callText) calls ++ unsent) /\
  (forall combinedAudio,
      r = Return combinedAudio -> combinedAudio = concat (payloads decode calls)).
Proof.
  intros Hrun Hcalls.
  apply generateSpeech_tryBlock in Hrun as (r0 & Htry & Hr).
  apply tryBlock_run in Htry as (textChunks & calls' & Hchunks & Hi & Hshape).
  rewrite Hi in Hcalls. apply app_inv_head in Hcalls. subst calls'.
  assert (Hsent : exists unsent,
             filter spoken textChunks = map (@callText) calls ++ unsent).
  { destruct Hshape as [(_ & Ht & _)|(_ & _ & unsent & _ & _ & _ & _ & Ht & _)].
    - exists []. now rewrite app_nil_r.
    - now exists unsent. }
  destruct Hsent as (unsent & Hsent). split; [|split].
  - apply Forall_forall. intros c Hc.
    assert (Hin : In (callText c) (filter spoken textChunks)).
    { rewrite Hsent. apply in_or_app. left. now apply in_map. }
    apply filter_In in Hin as [_ Hs]. exact Hs.
  - now exists textChunks, unsent.
  - intros buf ->.
    destruct Hshape as [Hc|(_ & _ & _ & e & _ & _ & _ & _ & ->)]; [|discriminate].
    apply completed_result in Hc. destruct r0; [|discriminate].
    injection Hr as ->. apply Hc.
Qed.

(** C10. A call that succeeds without inline audio goes through: it adds no
    bytes and the loop goes on. Every run of the [try] block has one of two
    shapes. Either all calls went through, every spoken segment was sent,
    and the run fails only when the payloads add up to zero bytes, with the
    "no audio" error; or the last call threw (or its payload could not be
    decoded), which ended the run there with that error. *)
Theorem empty_replies_fail_only_in_aggregate fuel text voiceName
        (w w' : World Service) r calls :
  tryBlock fuel text voiceName w = Some (r, w') ->
  issued w' = issued w ++ calls ->
  (forall c response,
      In c calls -> callReply c = Return response ->
      inlineAudio response = None \/ inlineAudio response = Some [] ->
      passed decode c /\ payloadOf decode c = []) /\
  exists textChunks,
    chunkText fuel text = Some textChunks /\
    ((Forall (passed decode) calls /\
      map (@callText) calls = filter spoken textChunks /\
      r = if total (payloads decode calls) =? 0 then Throw noAudio
          else Return (concat (payloads decode calls)))
     \/
     (exists before last unsent e,
         calls = before ++ [last] /\
         Forall (passed decode) before /\
         (verdictOf decode last = Threw e \/ verdictOf decode last = Undecodable e) /\
         filter spoken textChunks = map (@callText) calls ++ unsent /\
         r = Throw e)).
Proof.
  intros Htry Hcalls. split.
  - intros c response _. apply empty_reply_passed.
  - apply tryBlock_run in Htry as (textChunks & calls' & Hchunks & Hi & Hshape).
    rewrite Hi in Hcalls. apply app_inv_head in Hcalls. subst calls'.
    exists textChunks. split; [exact Hchunks|exact Hshape].
Qed.

End SpeechClaims.

Lemma generateSpeech_concatenates_witness :
  speak 0 threeSentences scriptABC =
    Some (Return (payloadA ++ payloadB ++ payloadC), left [] callsABC) /\
  length (payloadA ++ payloadB ++ payloadC) = 400 /\
  range (payloadA ++ payloadB ++ payloadC) 0 100 = payloadA /\
  range (payloadA ++ payloadB ++ payloadC) 100 250 = payloadB /\
  range (payloadA ++ payloadB ++ payloadC) 350 50 = payloadC.
Proof.
  assert (Hrun : speak 0 threeSentences scriptABC =
                 Some (Return (payloadA ++ payloadB ++ payloadC), left [] callsABC))
    by (vm_compute; reflexivity).
  assert (Hcalls : issued (left [] callsABC) = issued (fresh scriptABC) ++ callsABC)
    by reflexivity.
  assert (Hps : payloads base64ToUint8Array callsABC = [payloadA; payloadB; payloadC])
    by (vm_compute; reflexivity).
  destruct (@generateSpeech_concatenates _ _ _ _ _ _ _ _ _ _ Hrun Hcalls) as (_ & Hlen & Hrange).
  rewrite Hps in Hlen, Hrange.
  split; [exact Hrun|]. split; [exact Hlen|].
  split; [exact (Hrange 0 payloadA eq_refl)|].
  split; [exact (Hrange 1 payloadB eq_refl)|exact (Hrange 2 payloadC eq_refl)].
Defined.

Lemma generateSpeech_stops_at_first_failure_witness :
  speak 0 threeSentences scriptFailing =
    Some (Throw failedToGenerate, left [audioReply encodedC] callsFailing) /\
  exists before textChunks unsent,
    callsFailing = before ++ [asked (segmentOf "b") unavailable] /\
    Forall (fun c => threw c = false) before /\
    chunkText 0 threeSentences = Some textChunks /\
    filter spoken textChunks = map (@callText) callsFailing ++ unsent.
Proof.
  assert (Hrun : speak 0 threeSentences scriptFailing =
                 Some (Throw failedToGenerate, left [audioReply encodedC] callsFailing))
    by (vm_compute; reflexivity).
  assert (Hcalls : issued (left [audioReply encodedC] callsFailing) =
                   issued (fresh scriptFailing) ++ callsFailing) by reflexivity.
  assert (Hin : In (asked (segmentOf "b") unavailable) callsFailing)
    by (right; left; reflexivity).
  split; [exact Hrun|].
  exact (proj2 (@generateSpeech_stops_at_first_failure
                  _ _ _ _ _ _ _ _ _ _ _ Hrun Hcalls Hin eq_refl)).
Defined.

Lemma generateSpeech_never_returns_empty_witness :
  speak 0 threeSentences scriptSilent =
    Some (Throw failedToGenerate, left [] callsSilent) /\
  total (payloads base64ToUint8Array callsSilent) = 0 /\
  tryBlock scripted base64ToUint8Array 0 threeSentences "Puck" (fresh scriptSilent) =
    Some (Throw noAudio, left [] callsSilent).
Proof.
  assert (Hrun : speak 0 threeSentences scriptSilent =
                 Some (Throw failedToGenerate, left [] callsSilent))
    by (vm_compute; reflexivity).
  assert (Hcalls : issued (left [] callsSilent) =
                   issued (fresh scriptSilent) ++ callsSilent) by reflexivity.
  assert (Hpassed : Forall (passed base64ToUint8Array) callsSilent)
    by (repeat constructor).
  assert (Hzero : total (payloads base64ToUint8Array callsSilent) = 0)
    by reflexivity.
  destruct (@generateSpeech_never_returns_empty _ _ _ _ _ _ _ _ _ _ Hrun Hcalls)
    as (_ & _ & Hinner).
  split; [exact Hrun|]. split; [exact Hzero|].
  exact (Hinner Hpassed Hzero).
Defined.

Lemma blank_segments_are_not_synthesized_witness :
  chunkText 3 wideGap = Some [lit "Hi."; []; lit "Bye."] /\
  speak 3 wideGap scriptGap =
    Some (Return (payloadA ++ payloadC), left [] callsGap) /\
  Forall (fun c => truthy (trim (callText c)) = true) callsGap /\
  payloadA ++ payloadC = concat (payloads base64ToUint8Array callsGap).
Proof.
  assert (Hchunks : chunkText 3 wideGap = Some [lit "Hi."; []; lit "Bye."])
    by (vm_compute; reflexivity).
  assert (Hrun : speak 3 wideGap scriptGap =
                 Some (Return (payloadA ++ payloadC), left [] callsGap))
    by (vm_compute; reflexivity).
  assert (Hcalls : issued (left [] callsGap) = issued (fresh scriptGap) ++ callsGap)
    by reflexivity.
  destruct (@blank_segments_are_not_synthesized _ _ _ _ _ _ _ _ _ _ Hrun Hcalls)
    as (Hspoken & _ & Hbuf).
  split; [exact Hchunks|]. split; [exact Hrun|]. split; [exact Hspoken|].
  exact (Hbuf _ eq_refl).
Defined.

(** The text [Hello.\n\n\nWorld.] is one segment and one call: the line
    breaks stay inside the first sentence unit, and no unit of white space
    alone is sent. *)
Example helloWorld_one_call :
  rawSentences helloWorld = [lit "Hello." ++ [LF; LF; LF]; lit "World."] /\
  speak 0 helloWorld [audioReply encodedA] =
    Some (Return payloadA, left [] [asked helloWorld (audioReply encodedA)]).
Proof. split; vm_compute; reflexivity. Qed.

Lemma empty_replies_fail_only_in_aggregate_witness :
  tryBlock scripted base64ToUint8Array 0 threeSentences "Puck" (fresh scriptMixed) =
    Some (Return (payloadA ++ payloadC), left [] callsMixed) /\
  passed base64ToUint8Array (asked (segmentOf "b") emptyReply) /\
  payloadOf base64ToUint8Array (asked (segmentOf "b") emptyReply) = [].
Proof.
  assert (Hrun : tryBlock scripted base64ToUint8Array 0 threeSentences "Puck"
                          (fresh scriptMixed) =
                 Some (Return (payloadA ++ payloadC), left [] callsMixed))
    by (vm_compute; reflexivity).
  assert (Hcalls : issued (left [] callsMixed) =
                   issued (fresh scriptMixed) ++ callsMixed) by reflexivity.
  destruct (@empty_replies_fail_only_in_aggregate _ _ _ _ _ _ _ _ _ _ Hrun Hcalls)
    as (Hempty & _).
  split; [exact Hrun|].
  apply (Hempty (asked (segmentOf "b") emptyReply) {| candidates := Some [] |}).
  - right; left; reflexivity.
  - reflexivity.
  - left; reflexivity.
Defined.

(** * Further properties of the code *)

(** ** What [trim] does *)

Module TrimFacts.
Import JS Pieces JSFacts.

Lemma subseq_refl s : subseq s s.
Proof. induction s; [apply subseq_nil|now apply subseq_keep]. Qed.

Lemma subseq_nil_l s : subseq [] s.
Proof. induction s; [apply subseq_nil|now apply subseq_drop]. Qed.

Lemma subseq_app a a' b b' :
  subseq a a' -> subseq b b' -> subseq (a ++ b) (a' ++ b').
Proof.
  induction 1 as [|c a a' _ IH|c a a' _ IH]; simpl; intros Hb.
  - exact Hb.
  - apply subseq_drop. now apply IH.
  - apply subseq_keep. now apply IH.
Qed.

Lemma subseq_trans a b c : subseq a b -> subseq b c -> subseq a c.
Proof.
  intros Hab Hbc. revert a Hab.
  induction Hbc as [|x b c _ IH|x b c _ IH]; intros a Hab.
  - exact Hab.
  - apply subseq_drop. now apply IH.
  - inversion Hab; subst.
    + apply subseq_drop. now apply IH.
    + apply subseq_keep. now apply IH.
Qed.

Lemma subseq_length a b : subseq a b -> length a <= length b.
Proof. induction 1; simpl; lia. Qed.

Lemma subseq_incl a b : subseq a b -> incl a b.
Proof.
  induction 1 as [|c a b _ IH|c a b _ IH]; intros x Hx.
  - exact Hx.
  - right. now apply IH.
  - destruct Hx as [->|Hx]; [now left|right; now apply IH].
Qed.

Lemma subseq_firstn n s : subseq (firstn n s) s.
Proof.
  rewrite <- (firstn_skipn n s) at 2.
  rewrite <- (app_nil_r (firstn n s)) at 1.
  apply subseq_app; [apply subseq_refl|apply subseq_nil_l].
Qed.

(** [trimStart] removes a stretch of white space from the front. *)
Lemma trimStart_split s :
  exists front, s = front ++ trimStart s /\ blank front.
Proof.
  induction s as [|c s (front & Hs & Hb)]; simpl.
  - exists []. split; [reflexivity|constructor].
  - destruct (isWhiteSpace c) eqn:Hc.
    + exists (c :: front). split; [simpl; now f_equal|now constructor].
    + exists []. split; [reflexivity|constructor].
Qed.

Lemma trimStart_head s c t :
  trimStart s = c :: t -> isWhiteSpace c = false.
Proof.
  induction s as [|x s IH]; simpl; [discriminate|].
  destruct (isWhiteSpace x) eqn:Hx; [exact IH|].
  now intros [= <- <-].
Qed.

Lemma trimStart_fixed s :
  match s with [] => True | c :: _ => isWhiteSpace c = false end ->
  trimStart s = s.
Proof. destruct s as [|c s]; simpl; [reflexivity|]. now intros ->. Qed.

Lemma trimStart_idempotent s : trimStart (trimStart s) = trimStart s.
Proof.
  apply trimStart_fixed. destruct (trimStart s) eqn:H; [exact I|].
  eapply trimStart_head; eassumption.
Qed.

Lemma trimStart_blank s : blank s -> trimStart s = [].
Proof. induction 1 as [|c s Hc _ IH]; simpl; [reflexivity|now rewrite Hc]. Qed.

Lemma trim_blank s : blank s -> trim s = [].
Proof.
  intros H. unfold trim, trimEnd. now rewrite (trimStart_blank H).
Qed.

Lemma subseq_trimStart s : subseq (trimStart s) s.
Proof.
  destruct (trimStart_split s) as (front & Hs & _).
  rewrite Hs at 2. change (trimStart s) with ([] ++ trimStart s) at 1.
  apply subseq_app; [apply subseq_nil_l|apply subseq_refl].
Qed.

Lemma subseq_rev a b : subseq a b -> subseq (rev a) (rev b).
Proof.
  induction 1 as [|c a b _ IH|c a b _ IH]; simpl.
  - constructor.
  - rewrite <- (app_nil_r (rev a)).
    apply subseq_app; [exact IH|apply subseq_nil_l].
  - apply subseq_app; [exact IH|apply subseq_refl].
Qed.

Lemma subseq_trim s : subseq (trim s) s.
Proof.
  unfold trim, trimEnd.
  eapply subseq_trans; [|apply subseq_trimStart].
  rewrite <- (rev_involutive (trimStart s)) at 2.
  apply subseq_rev, subseq_trimStart.
Qed.

(** What [trim] returns has white space at neither end, so trimming it again
    changes nothing. *)
Lemma trim_trimmed s : trimmed (trim s).
Proof.
  unfold trimmed, trim at 1 2, trimEnd.
  set (t := trimStart s).
  destruct (trimStart_split (rev t)) as (front & Hrev & _).
  set (u := trimStart (rev t)) in *.
  assert (Ht : t = rev u ++ rev front).
  { rewrite <- (rev_involutive t), Hrev, rev_app_distr. reflexivity. }
  assert (Hu : trimStart (rev u) = rev u).
  { apply trimStart_fixed. destruct (rev u) as [|c r] eqn:Hr; [exact I|].
    unfold t in Ht. simpl in Ht. eapply trimStart_head. exact Ht. }
  unfold trim, trimEnd. rewrite Hu, rev_involutive.
  unfold u at 1. now rewrite trimStart_idempotent.
Qed.

End TrimFacts.

(** ** What the segmenter keeps of the text *)

Module SegmenterMore.
Import JS Regex Segmenter Pieces JSFacts RegexFacts SegmenterFacts TrimFacts.

Lemma cutFrom_subseq units s : cutFrom units s -> subseq (concat units) s.
Proof.
  induction 1 as [s|c s units _ IH|m rest units _ IH]; simpl.
  - apply subseq_nil_l.
  - now apply subseq_drop.
  - apply subseq_app; [apply subseq_refl|exact IH].
Qed.

Lemma subseq_cut n s : subseq (trim (firstn n s) ++ skipn n s) s.
Proof.
  rewrite <- (firstn_skipn n s) at 3.
  apply subseq_app; [apply subseq_trim|apply subseq_refl].
Qed.

(** The hard split appends trimmed pieces; the pieces and what is left in
    the buffer are, in this order, what it was given with some characters
    left out. *)
Lemma hardSplit_pieces fuel : forall chunks currentChunk remaining chunks' currentChunk',
  0 < length remaining ->
  hardSplit fuel chunks currentChunk remaining = Some (chunks', currentChunk') ->
  exists pieces,
    chunks' = chunks ++ pieces /\
    Forall trimmed pieces /\
    subseq (concat pieces ++ currentChunk') remaining.
Proof.
  induction fuel as [|fuel IH]; intros chunks cur rem chunks' cur' Hpos;
    [discriminate|].
  destruct (Nat.le_gt_cases (length rem) MAX_CHAR_LIMIT) as [Hle|Hlong].
  - rewrite hardSplit_exit by assumption. intros [= <- <-].
    exists []. rewrite app_nil_r. repeat split; [constructor|apply subseq_refl].
  - rewrite hardSplit_step by assumption. intros H.
    pose proof (breakAt_range rem) as Hb.
    apply IH in H as (pieces & -> & Ht & Hs).
    + exists (trim (substring_to rem (breakAt rem)) :: pieces).
      rewrite <- app_assoc. repeat split; auto.
      * constructor; [apply trim_trimmed|exact Ht].
      * simpl. rewrite <- app_assoc.
        eapply subseq_trans; [|apply (subseq_cut (Z.to_nat (breakAt rem)) rem)].
        apply subseq_app; [apply subseq_refl|exact Hs].
    + unfold substring_from. rewrite length_skipn. lia.
Qed.

Lemma forSentences_pieces fuel sentences :
  forall chunks currentChunk chunks' currentChunk',
    forSentences fuel sentences chunks currentChunk = Some (chunks', currentChunk') ->
    exists pieces,
      chunks' = chunks ++ pieces /\
      Forall trimmed pieces /\
      subseq (concat pieces ++ currentChunk') (currentChunk ++ concat sentences).
Proof.
  induction sentences as [|sentence rest IH]; intros chunks cur chunks' cur';
    cbn [forSentences concat].
  - intros [= <- <-]. exists []. rewrite !app_nil_r.
    repeat split; [constructor|apply subseq_refl].
  - destruct (Nat.ltb_spec MAX_CHAR_LIMIT (length sentence)) as [Hlong|Hshort].
    + destruct (hardSplit fuel _ _ sentence) as [[chunks1 cur1]|] eqn:Hsplit;
        [|discriminate].
      intros H.
      apply hardSplit_pieces in Hsplit as (p1 & -> & Ht1 & Hs1); [|lia].
      apply IH in H as (p2 & -> & Ht2 & Hs2).
      assert (Hmid : subseq (concat p1 ++ concat p2 ++ cur') (sentence ++ concat rest)).
      { eapply subseq_trans;
          [|apply (subseq_app Hs1 (subseq_refl (concat rest)))].
        rewrite <- app_assoc.
        apply subseq_app; [apply subseq_refl|exact Hs2]. }
      destruct cur as [|c cur]; cbn [truthy fst snd].
      * exists (p1 ++ p2). rewrite <- app_assoc.
        repeat split; [now apply Forall_app|].
        rewrite concat_app, <- app_assoc. exact Hmid.
      * exists (trim (c :: cur) :: p1 ++ p2). rewrite <- !app_assoc.
        repeat split.
        -- constructor; [apply trim_trimmed|now apply Forall_app].
        -- cbn [concat]. rewrite concat_app, <- !app_assoc.
           apply subseq_app; [apply subseq_trim|exact Hmid].
    + destruct (Nat.leb_spec (length (cur ++ sentence)) MAX_CHAR_LIMIT) as [Hfit|Hover].
      * intros H. apply IH in H as (p & -> & Ht & Hs).
        exists p. rewrite <- app_assoc in Hs. auto.
      * intros H. apply IH in H as (p & -> & Ht & Hs).
        exists (trim cur :: p). rewrite <- app_assoc.
        repeat split.
        -- constructor; [apply trim_trimmed|exact Ht].
        -- cbn [concat]. rewrite <- app_assoc.
           apply subseq_app; [apply subseq_trim|exact Hs].
Qed.

Lemma chunkText_pieces fuel text chunks :
  chunkText fuel text = Some chunks ->
  Forall trimmed chunks /\ subseq (concat chunks) text.
Proof.
  unfold chunkText.
  destruct (forSentences fuel (rawSentences text) [] []) as [[chunks' cur]|] eqn:H;
    [|discriminate].
  apply forSentences_pieces in H as (p & -> & Ht & Hs). simpl in Hs.
  pose proof (cutFrom_subseq (rawSentences_cutFrom text)) as Hunits.
  intros [= <-]. destruct (truthy (trim cur)).
  - split.
    + apply Forall_app. split; [exact Ht|]. constructor; [apply trim_trimmed|constructor].
    + rewrite concat_app. simpl. rewrite app_nil_r.
      eapply subseq_trans; [|exact Hunits].
      eapply subseq_trans; [|exact Hs].
      apply subseq_app; [apply subseq_refl|apply subseq_trim].
  - split; [exact Ht|].
    eapply subseq_trans; [|exact Hunits].
    eapply subseq_trans; [|exact Hs].
    rewrite <- (app_nil_r (concat p)) at 1.
    apply subseq_app; [apply subseq_refl|apply subseq_nil_l].
Qed.

(** *** When the hard split is never stuck *)

(** No occurrence of the character lies between the index that
    [lastIndexOf] answers and [pos]. *)
Lemma lastIndexOf_max (c : char) (s : jsstring) : forall pos i,
  (lastIndexOf c s pos < Z.of_nat i)%Z -> i <= pos ->
  nth_error s i <> Some c.
Proof.
  induction s as [|x s IH]; intros pos i Hk Hi; [destruct i; discriminate|].
  cbn [lastIndexOf] in Hk.
  destruct i as [|j].
  - assert (Hx : x <> c); [|simpl; congruence].
    destruct pos as [|p].
    + simpl in Hk. destruct (N.eqb_spec x c); [lia|assumption].
    + pose proof (lastIndexOf_range c s p) as Hr.
      destruct (Z.leb_spec 0 (lastIndexOf c s p)); [lia|].
      destruct (N.eqb_spec x c); [lia|assumption].
  - destruct pos as [|p]; [lia|]. simpl.
    pose proof (lastIndexOf_range c s p) as Hr.
    apply (IH p); [|lia].
    destruct (Z.leb_spec 0 (lastIndexOf c s p)); [lia|].
    destruct (x =? c)%N; lia.
Qed.

Lemma stuck_shape remaining :
  MAX_CHAR_LIMIT < length remaining -> breakAt remaining = 0%Z ->
  exists run after,
    remaining = SPACE :: run ++ after /\
    length run = MAX_CHAR_LIMIT /\ ~ In SPACE run.
Proof.
  intros Hlong Hzero. unfold breakAt in Hzero.
  destruct (Z.eqb_spec (lastIndexOf SPACE remaining MAX_CHAR_LIMIT) (-1)) as [_|_];
    [unfold MAX_CHAR_LIMIT in Hzero; lia|].
  pose proof (lastIndexOf_found SPACE remaining MAX_CHAR_LIMIT) as Hfound.
  rewrite Hzero in Hfound. specialize (Hfound ltac:(lia)).
  destruct remaining as [|c rest]; [discriminate|].
  simpl in Hfound. injection Hfound as ->.
  exists (firstn MAX_CHAR_LIMIT rest), (skipn MAX_CHAR_LIMIT rest).
  split; [now rewrite firstn_skipn|]. split.
  - rewrite length_firstn. simpl in Hlong. lia.
  - intros Hin. apply In_nth_error in Hin as [j Hj].
    assert (Hjlt : j < MAX_CHAR_LIMIT).
    { assert (Hlt : j < length (firstn MAX_CHAR_LIMIT rest))
        by (apply nth_error_Some; congruence).
      rewrite length_firstn in Hlt. lia. }
    rewrite nth_error_firstn in Hj.
    apply Nat.ltb_lt in Hjlt as Hjb. rewrite Hjb in Hj.
    apply (@lastIndexOf_max SPACE (SPACE :: rest) MAX_CHAR_LIMIT (S j));
      [rewrite Hzero; lia|lia|exact Hj].
Qed.

Lemma factor_refl s : factor s s.
Proof. exists [], []. now rewrite app_nil_r. Qed.

Lemma factor_trans r s t : factor r s -> factor s t -> factor r t.
Proof.
  intros (b1 & a1 & ->) (b2 & a2 & ->).
  exists (b2 ++ b1), (a1 ++ a2). now rewrite <- !app_assoc.
Qed.

Lemma factor_skipn n s : factor (skipn n s) s.
Proof. exists (firstn n s), []. now rewrite app_nil_r, firstn_skipn. Qed.

Lemma cutFrom_factor units s :
  cutFrom units s -> Forall (fun u => factor u s) units.
Proof.
  induction 1 as [s|c s units _ IH|m rest units _ IH].
  - constructor.
  - eapply Forall_impl; [|exact IH]. intros u (b & a & ->).
    now exists (c :: b), a.
  - constructor; [now exists [], rest|].
    eapply Forall_impl; [|exact IH]. intros u (b & a & ->).
    exists (m ++ b), a. now rewrite <- app_assoc.
Qed.

Lemma spaceThenLongRun_factor r s :
  factor r s -> spaceThenLongRun r -> spaceThenLongRun s.
Proof.
  intros Hrs (run & Hf & Hlen & Hns). exists run.
  split; [eapply factor_trans; eassumption|auto].
Qed.

Lemma longRunAfterSpace_complete s :
  spaceThenLongRun s -> longRunAfterSpace s = true.
Proof.
  intros (run & (before & after & ->) & Hlen & Hns).
  induction before as [|c before IH]; cbn [app longRunAfterSpace].
  - rewrite N.eqb_refl. rewrite firstn_app, Hlen, Nat.sub_diag, firstn_all2 by lia.
    simpl firstn. rewrite app_nil_r, Hlen, Nat.eqb_refl. simpl.
    apply orb_true_iff. left. apply forallb_forall. intros x Hx.
    apply negb_true_iff, N.eqb_neq. intros ->. now apply Hns.
  - apply orb_true_iff. right. exact IH.
Qed.

Lemma hardSplit_returns n : forall remaining chunks currentChunk,
  length remaining <= n -> ~ spaceThenLongRun remaining ->
  exists r, hardSplit (S n) chunks currentChunk remaining = Some r.
Proof.
  induction n as [|n IH]; intros rem chunks cur Hn Hok.
  - destruct rem; [|simpl in Hn; lia]. eexists. apply hardSplit_empty.
  - destruct (Nat.le_gt_cases (length rem) MAX_CHAR_LIMIT) as [Hle|Hlong].
    + destruct rem as [|c rem].
      * eexists. apply hardSplit_empty.
      * eexists. apply hardSplit_exit; [simpl; lia|assumption].
    + assert (Hnz : breakAt rem <> 0%Z).
      { intros Hz. apply Hok.
        destruct (stuck_shape rem Hlong Hz) as (run & after & -> & Hlen & Hns).
        exists run. split; [now exists [], after|auto]. }
      rewrite hardSplit_step by assumption.
      apply IH.
      * pose proof (hardSplit_progress rem Hlong Hnz). lia.
      * intros Hbad. apply Hok.
        eapply spaceThenLongRun_factor; [|exact Hbad]. apply factor_skipn.
Qed.

Lemma forSentences_returns fuel sentences :
  Forall (fun sentence => length sentence < fuel /\ ~ spaceThenLongRun sentence)
         sentences ->
  forall chunks currentChunk,
    exists r, forSentences fuel sentences chunks currentChunk = Some r.
Proof.
  induction 1 as [|sentence rest [Hlen Hok] _ IH]; intros chunks cur.
  - eexists. reflexivity.
  - cbn [forSentences].
    destruct (MAX_CHAR_LIMIT <? length sentence).
    + destruct fuel as [|n]; [lia|].
      destruct (@hardSplit_returns n sentence
                  (fst (if truthy cur then (chunks ++ [trim cur], []) else (chunks, cur)))
                  (snd (if truthy cur then (chunks ++ [trim cur], []) else (chunks, cur))))
        as [[chunks1 cur1] Hr]; [lia|assumption|].
      rewrite Hr. apply IH.
    + destruct (length (cur ++ sentence) <=? MAX_CHAR_LIMIT); apply IH.
Qed.

Lemma chunkText_returns text :
  ~ spaceThenLongRun text ->
  exists chunks, chunkText (S (length text)) text = Some chunks.
Proof.
  intros Hok.
  destruct (@forSentences_returns (S (length text)) (rawSentences text))
    with (chunks := @nil jsstring) (currentChunk := @nil char)
    as [[chunks cur] Hr].
  - pose proof (rawSentences_unit_length text) as Hlen.
    pose proof (cutFrom_factor (rawSentences_cutFrom text)) as Hfac.
    rewrite Forall_forall in *. intros u Hu. split.
    + specialize (Hlen u Hu). simpl in Hlen. lia.
    + intros Hbad. apply Hok.
      eapply spaceThenLongRun_factor; [|exact Hbad]. now apply Hfac.
  - eexists. unfold chunkText. rewrite Hr. reflexivity.
Qed.

(** *** A long run without white space is cut without loss *)

Definition full (piece : jsstring) : Prop := length piece = MAX_CHAR_LIMIT.

Lemma hardSplit_lossless n : forall remaining chunks currentChunk,
  length remaining <= n -> 0 < length remaining -> noWhiteSpace remaining ->
  exists pieces currentChunk',
    hardSplit (S n) chunks currentChunk remaining =
      Some (chunks ++ pieces, currentChunk') /\
    concat pieces ++ currentChunk' = remaining /\
    Forall full pieces /\
    0 < length currentChunk' <= MAX_CHAR_LIMIT.
Proof.
  induction n as [|n IH]; intros rem chunks cur Hn Hpos Hws; [lia|].
  destruct (Nat.le_gt_cases (length rem) MAX_CHAR_LIMIT) as [Hle|Hlong].
  - exists [], rem. rewrite app_nil_r, hardSplit_exit by assumption.
    repeat split; auto; constructor.
  - rewrite hardSplit_step by assumption.
    rewrite (breakAt_no_space rem (noWhiteSpace_no_space Hws)).
    unfold substring_to, substring_from. rewrite Nat2Z.id.
    destruct (noWhiteSpace_split MAX_CHAR_LIMIT Hws) as [Hfirst Hrest].
    rewrite (trim_noWhiteSpace Hfirst).
    assert (Hmax : 0 < MAX_CHAR_LIMIT) by (unfold MAX_CHAR_LIMIT; lia).
    destruct (IH (skipn MAX_CHAR_LIMIT rem)
                 (chunks ++ [firstn MAX_CHAR_LIMIT rem]) cur)
      as (pieces & cur' & Hr & Hcat & Hfull & Hcur);
      [rewrite length_skipn; lia|rewrite length_skipn; lia|exact Hrest|].
    exists (firstn MAX_CHAR_LIMIT rem :: pieces), cur'.
    rewrite <- app_assoc in Hr. split; [exact Hr|]. split; [|split].
    + cbn [concat]. rewrite <- app_assoc, Hcat. apply firstn_skipn.
    + constructor; [|exact Hfull]. unfold full. rewrite length_firstn. lia.
    + exact Hcur.
Qed.

Lemma length_concat_full pieces :
  Forall full pieces -> length (concat pieces) = MAX_CHAR_LIMIT * length pieces.
Proof.
  induction 1 as [|p ps Hp _ IH]; cbn [concat length]; [lia|].
  rewrite length_app, IH, Hp, Nat.mul_succ_r. lia.
Qed.

(** *** Sentences that fit are kept whole *)

Lemma forSentences_greedy fuel sentences :
  forall open chunks chunks' currentChunk',
    Forall within sentences -> within (concat open) ->
    forSentences fuel sentences chunks (concat open) = Some (chunks', currentChunk') ->
    exists groups last,
      open ++ sentences = concat groups ++ last /\
      greedy groups last /\
      chunks' = chunks ++ map (fun g => trim (concat g)) groups /\
      currentChunk' = concat last.
Proof.
  induction sentences as [|sentence rest IH];
    intros open chunks chunks' cur' Hall Hopen; cbn [forSentences].
  - intros [= <- <-]. exists [], open. rewrite !app_nil_r.
    repeat split. now constructor.
  - inversion Hall as [|? ? Hsentence Hrest]; subst.
    assert (Hshort : (MAX_CHAR_LIMIT <? length sentence) = false)
      by (apply Nat.ltb_ge; exact Hsentence).
    rewrite Hshort.
    destruct (Nat.leb_spec (length (concat open ++ sentence)) MAX_CHAR_LIMIT)
      as [Hfit|Hover].
    + assert (Hcat : concat open ++ sentence = concat (open ++ [sentence]))
        by (rewrite concat_app; cbn [concat]; now rewrite app_nil_r).
      rewrite Hcat. intros H.
      apply IH in H as (groups & last & Heq & Hg & Hc & Hl); auto.
      * exists groups, last. rewrite <- app_assoc in Heq. auto.
      * unfold within. now rewrite <- Hcat.
    + assert (Hone : sentence = concat [sentence])
        by (cbn [concat]; now rewrite app_nil_r).
      intros H. rewrite Hone in H.
      apply IH in H as (groups & last & Heq & Hg & Hc & Hl); auto.
      * exists (open :: groups), last. cbn [concat map].
        rewrite <- app_assoc, <- Heq. repeat split; auto.
        -- apply greedy_closed with (next := sentence); auto.
           now rewrite <- Heq.
        -- rewrite Hc, <- app_assoc. reflexivity.
      * unfold within. now rewrite <- Hone.
Qed.

End SegmenterMore.

(** ** Segmenter: further statements *)

Import Pieces MoreSamples TrimFacts SegmenterMore.

(** X1. The segments, one after the other, are the text with some
    characters left out: the segmenter never reorders characters, never
    repeats one and never adds any. *)
Theorem chunkText_keeps_order (text : jsstring) (chunks : list jsstring) :
  returns text chunks -> subseq (concat chunks) text.
Proof.
  intros [fuel H]. apply chunkText_pieces in H. apply H.
Qed.

Lemma chunkText_keeps_order_witness :
  returns versionNote [lit "5 is out."] /\
  subseq (concat [lit "5 is out."]) versionNote.
Proof.
  assert (H : returns versionNote [lit "5 is out."])
    by (exists 0; vm_compute; reflexivity).
  split; [exact H|exact (chunkText_keeps_order H)].
Defined.

Lemma trim_ends (s : jsstring) :
  (forall c, hd_error (trim s) = Some c -> isWhiteSpace c = false) /\
  (forall c, hd_error (rev (trim s)) = Some c -> isWhiteSpace c = false).
Proof.
  unfold trim, trimEnd. split; intros c Hc.
  - destruct (trimStart_split (rev (trimStart s))) as (front & Hrev & _).
    assert (Ht : trimStart s = rev (trimStart (rev (trimStart s))) ++ rev front).
    { rewrite <- (rev_involutive (trimStart s)) at 1.
      rewrite Hrev at 1. now rewrite rev_app_distr. }
    destruct (rev (trimStart (rev (trimStart s)))) as [|x r]; [discriminate|].
    injection Hc as ->. simpl in Ht. eapply trimStart_head. exact Ht.
  - rewrite rev_involutive in Hc.
    destruct (trimStart (rev (trimStart s))) as [|x r] eqn:E; [discriminate|].
    injection Hc as ->. eapply trimStart_head. exact E.
Qed.

(** X2. Every segment is trimmed: it neither starts nor ends with white
    space, and trimming it again gives the same segment. *)
Theorem chunkText_segments_trimmed (text : jsstring) (chunks : list jsstring) :
  returns text chunks ->
  Forall (fun segment =>
            trim segment = segment /\
            (forall c, hd_error segment = Some c -> isWhiteSpace c = false) /\
            (forall c, hd_error (rev segment) = Some c -> isWhiteSpace c = false))
         chunks.
Proof.
  intros [fuel H]. apply chunkText_pieces in H as [H _].
  eapply Forall_impl; [|exact H].
  intros segment Ht. unfold trimmed in Ht. split; [exact Ht|].
  rewrite <- Ht. apply trim_ends.
Qed.

Lemma chunkText_segments_trimmed_witness :
  returns greeting [lit "Hello. World!"] /\
  trim (lit "Hello. World!") = lit "Hello. World!".
Proof.
  assert (H : returns greeting [lit "Hello. World!"])
    by (exists 0; vm_compute; reflexivity).
  split; [exact H|].
  pose proof (chunkText_segments_trimmed H) as Hall.
  inversion Hall as [|? ? Hfirst _]. apply Hfirst.
Defined.

(** X3. [chunkText] returns on every text in which no space is followed by
    3000 characters that are all different from a space; [length text + 1]
    iterations of the hard split are enough. *)
Theorem chunkText_returns_unless_long_run (text : jsstring) :
  ~ spaceThenLongRun text ->
  exists chunks,
    chunkText (S (length text)) text = Some chunks /\ returns text chunks.
Proof.
  intros Hok. destruct (chunkText_returns Hok) as [chunks H].
  exists chunks. split; [exact H|]. now exists (S (length text)).
Qed.

Lemma chunkText_returns_unless_long_run_witness :
  exists chunks,
    chunkText (S (length prose)) prose = Some chunks /\ returns prose chunks.
Proof.
  apply chunkText_returns_unless_long_run.
  intros Hbad. apply longRunAfterSpace_complete in Hbad.
  vm_compute in Hbad. discriminate.
Defined.

(** X4. A text without white space and without sentence delimiters, of any
    length, is cut without loss: the segments concatenate back to the text,
    all but the last are exactly 3000 characters long, and there are
    [ceil (length text / 3000)] of them. *)
Theorem chunkText_run_lossless (text : jsstring) :
  plain text -> noWhiteSpace text ->
  exists chunks,
    returns text chunks /\
    concat chunks = text /\
    Forall (fun segment => length segment = 3000) (removelast chunks) /\
    length chunks = (length text + 2999) / 3000.
Proof.
  intros Hplain Hws.
  assert (Hmax : MAX_CHAR_LIMIT = 3000) by reflexivity.
  destruct text as [|c text].
  { exists []. repeat split; [exists 0; reflexivity|constructor]. }
  set (t := c :: text) in *.
  assert (Hpos : 0 < length t) by (simpl; lia).
  destruct (Nat.le_gt_cases (length t) MAX_CHAR_LIMIT) as [Hle|Hlong].
  - exists [t]. split; [|split; [|split]].
    + exists 0. rewrite chunkText_fits; rewrite (rawSentences_plain Hplain);
        cbn [concat]; rewrite ?app_nil_r; [|exact Hle].
      rewrite (trim_noWhiteSpace Hws). reflexivity.
    + cbn [concat]. apply app_nil_r.
    + constructor.
    + cbn [length].
      apply Nat.div_unique with (r := length t - 1); lia.
  - destruct (@hardSplit_lossless (length t) t [] [])
      as (pieces & cur & Hr & Hcat & Hfull & Hcur); auto.
    assert (Hcurws : noWhiteSpace cur).
    { rewrite <- Hcat in Hws. unfold noWhiteSpace in Hws.
      apply Forall_app in Hws. apply Hws. }
    exists (pieces ++ [cur]). split; [|split; [|split]].
    + exists (S (length t)). unfold chunkText.
      rewrite (rawSentences_plain Hplain). cbn [forSentences].
      apply Nat.ltb_lt in Hlong as Hlt. rewrite Hlt. cbn [truthy fst snd].
      rewrite Hr. cbn [app]. rewrite (trim_noWhiteSpace Hcurws).
      destruct cur; [simpl in Hcur; lia|reflexivity].
    + rewrite concat_app. cbn [concat]. now rewrite app_nil_r.
    + rewrite removelast_last. eapply Forall_impl; [|exact Hfull].
      intros p Hp. unfold full in Hp. lia.
    + rewrite length_app. cbn [length].
      pose proof (length_concat_full Hfull) as Hlen.
      assert (Ht : length t = MAX_CHAR_LIMIT * length pieces + length cur)
        by (rewrite <- Hcat, length_app; lia).
      apply Nat.div_unique with (r := length cur - 1); lia.
Qed.

Lemma chunkText_run_lossless_witness :
  exists chunks,
    returns longerRun chunks /\
    concat chunks = longerRun /\
    Forall (fun segment => length segment = 3000) (removelast chunks) /\
    length chunks = (length longerRun + 2999) / 3000.
Proof.
  apply chunkText_run_lossless.
  - apply plain_repeat. reflexivity.
  - apply noWhiteSpace_repeat. reflexivity.
Defined.

(** X15. When no sentence unit is longer than 3000 characters, no unit is
    cut: the units are packed, in order, into groups; every group fits the
    budget and is closed only when the next unit would not fit; the segments
    are the trimmed groups, the last one being left out when it is blank. *)
Theorem chunkText_packs_whole_sentences (text : jsstring) (chunks : list jsstring) :
  Forall (fun sentence => length sentence <= 3000) (rawSentences text) ->
  returns text chunks ->
  exists groups last,
    concat groups ++ last = rawSentences text /\
    greedy groups last /\
    chunks = map (fun g => trim (concat g)) groups
             ++ (if truthy (trim (concat last)) then [trim (concat last)] else []).
Proof.
  intros Hall [fuel H]. revert H. unfold chunkText.
  destruct (forSentences fuel (rawSentences text) [] []) as [[chunks' cur]|] eqn:Hloop;
    [|discriminate].
  apply (@forSentences_greedy fuel (rawSentences text) [] []) in Hloop
    as (groups & last & Heq & Hg & -> & ->); [|exact Hall|unfold within; simpl; lia].
  intros [= <-]. exists groups, last. split; [symmetry; exact Heq|].
  split; [exact Hg|].
  destruct (truthy (trim (concat last))); [reflexivity|now rewrite app_nil_r].
Qed.

Lemma chunkText_packs_whole_sentences_witness :
  exists groups last,
    concat groups ++ last = rawSentences twoSentences /\
    greedy groups last /\
    [halfOf "a"; halfOf "b"] =
      map (fun g => trim (concat g)) groups
      ++ (if truthy (trim (concat last)) then [trim (concat last)] else []).
Proof.
  apply chunkText_packs_whole_sentences.
  - assert (H : forallb (fun sentence => length sentence <=? 3000)
                        (rawSentences twoSentences) = true)
      by (vm_compute; reflexivity).
    rewrite forallb_forall in H. apply Forall_forall.
    intros u Hu. apply Nat.leb_le. now apply H.
  - exists 0. vm_compute. reflexivity.
Defined.

(** ** Reassembler: further statements *)

Section SpeechMore.

Variable Service : Type.
Variable generateContent :
  Service -> jsstring -> string -> outcome GenerateContentResponse * Service.
Variable decode : jsstring -> outcome (list byte).

Local Abbreviation generateSpeech := (generateSpeech generateContent decode).
Local Abbreviation synthesize := (synthesize generateContent decode).

Lemma synthesize_voice voiceName textChunks :
  forall audioChunks totalLength (w w' : World Service) r,
    synthesize voiceName textChunks audioChunks totalLength w = (r, w') ->
    exists calls,
      issued w' = issued w ++ calls /\
      Forall (fun c => callVoice c = voiceName) calls.
Proof.
  induction textChunks as [|chunk rest IH]; intros acc tot w w' r H.
  - injection H as <- <-. exists []. split; [now rewrite app_nil_r|constructor].
  - destruct (spoken chunk) eqn:Hs.
    + rewrite synthesize_head in H by assumption.
      assert (Hone : issued (worldAfter generateContent w chunk voiceName) =
                     issued w ++ [callOf generateContent w chunk voiceName])
        by reflexivity.
      destruct (verdictOf decode (callOf generateContent w chunk voiceName)).
      * injection H as <- <-. eexists. split; [exact Hone|].
        constructor; [reflexivity|constructor].
      * injection H as <- <-. eexists. split; [exact Hone|].
        constructor; [reflexivity|constructor].
      * apply IH in H as (calls & Hi & Hv).
        exists (callOf generateContent w chunk voiceName :: calls). split.
        -- rewrite Hi, Hone, <- app_assoc. reflexivity.
        -- constructor; [reflexivity|exact Hv].
    + rewrite synthesize_blank in H by assumption. eapply IH. exact H.
Qed.

(** X5. Every request that [generateSpeech] sends carries a text that is
    not empty, is trimmed and is at most 3000 characters long, together with
    the voice that was asked for. *)
Theorem requests_fit_the_service fuel text voiceName (w w' : World Service) r calls :
  generateSpeech fuel text voiceName w = Some (r, w') ->
  issued w' = issued w ++ calls ->
  Forall (fun c =>
            0 < length (callText c) <= 3000 /\
            trim (callText c) = callText c /\
            callVoice c = voiceName)
         calls.
Proof.
  intros Hrun Hcalls.
  assert (Hvoice : Forall (fun c => callVoice c = voiceName) calls).
  { revert Hrun. unfold Speech.generateSpeech, tryBlock.
    destruct (chunkText fuel text) as [textChunks|]; [|discriminate].
    destruct (Speech.synthesize _ _ _ _ _ _ _) as [r0 w0] eqn:Hloop.
    apply synthesize_voice in Hloop as (calls' & Hi & Hv).
    intros Hrun.
    assert (w0 = w') by (destruct r0 as [[? ?]|?];
                         [destruct (assemble _ _)|]; congruence).
    subst w0. rewrite Hi in Hcalls. apply app_inv_head in Hcalls. now subst. }
  apply generateSpeech_tryBlock in Hrun as (r0 & Htry & _).
  apply tryBlock_run in Htry as (textChunks & calls' & Hchunks & Hi & Hshape).
  rewrite Hi in Hcalls. apply app_inv_head in Hcalls. subst calls'.
  assert (Hsent : exists unsent,
             filter spoken textChunks = map (@callText) calls ++ unsent).
  { destruct Hshape as [(_ & Ht & _)|(_ & _ & unsent & _ & _ & _ & _ & Ht & _)].
    - exists []. now rewrite app_nil_r.
    - now exists unsent. }
  destruct Hsent as (unsent & Hsent).
  pose proof (chunkText_budget _ _ Hchunks) as Hbudget.
  pose proof (chunkText_pieces _ _ Hchunks) as [Htrimmed _].
  rewrite Forall_forall in *. intros c Hc.
  assert (Hin : In (callText c) (filter spoken textChunks)).
  { rewrite Hsent. apply in_or_app. left. now apply in_map. }
  apply filter_In in Hin as [Hin Hs].
  specialize (Hbudget _ Hin). specialize (Htrimmed _ Hin).
  unfold within in Hbudget. unfold trimmed in Htrimmed.
  unfold spoken in Hs. rewrite Htrimmed in Hs. apply truthy_length in Hs.
  repeat split; auto.
Qed.

(** X6. For a text of at most 3000 characters that is white space only (the
    empty text included), [generateSpeech] throws its error without sending
    anything to the service. *)
Theorem generateSpeech_blank_text fuel text voiceName (w : World Service) :
  blank text -> length text <= 3000 ->
  generateSpeech fuel text voiceName w = Some (Throw failedToGenerate, w).
Proof.
  intros Hblank Hlen.
  assert (Hunits : subseq (concat (rawSentences text)) text)
    by apply cutFrom_subseq, rawSentences_cutFrom.
  assert (Hchunks : chunkText fuel text = Some []).
  { rewrite chunkText_fits.
    - rewrite trim_blank; [reflexivity|].
      unfold blank in *. rewrite Forall_forall in *. intros c Hc.
      apply Hblank. eapply subseq_incl; eassumption.
    - unfold within. apply subseq_length in Hunits.
      unfold MAX_CHAR_LIMIT. lia. }
  unfold Speech.generateSpeech, tryBlock. rewrite Hchunks. reflexivity.
Qed.

End SpeechMore.

Lemma requests_fit_the_service_witness :
  Forall (fun c =>
            0 < length (callText c) <= 3000 /\
            trim (callText c) = callText c /\
            callVoice c = "Puck"%string)
         [asked (lit "Hello. World!") (audioReply encodedA)].
Proof.
  assert (Hrun : speak 0 greeting [audioReply encodedA] =
                 Some (Return payloadA,
                       left [] [asked (lit "Hello. World!") (audioReply encodedA)]))
    by (vm_compute; reflexivity).
  assert (Hcalls : issued (left [] [asked (lit "Hello. World!") (audioReply encodedA)]) =
                   issued (fresh [audioReply encodedA])
                   ++ [asked (lit "Hello. World!") (audioReply encodedA)])
    by reflexivity.
  exact (@requests_fit_the_service _ _ _ _ _ _ _ _ _ _ Hrun Hcalls).
Defined.

Lemma generateSpeech_blank_text_witness :
  speak 0 blankText scriptABC = Some (Throw failedToGenerate, fresh scriptABC).
Proof.
  apply generateSpeech_blank_text.
  - repeat constructor.
  - simpl. lia.
Defined.

(** ** The recorder component *)

Module RecorderFacts.
Import JS Recorder.

Lemma digitsOf_small fuel n : n < 10 -> digitsOf (S fuel) n = [digit n].
Proof. intros H. cbn [digitsOf]. apply Nat.ltb_lt in H. now rewrite H. Qed.

Lemma digitsOf_more fuel n :
  10 <= n -> digitsOf (S fuel) n = digitsOf fuel (n / 10) ++ [digit (n mod 10)].
Proof. intros H. cbn [digitsOf]. apply Nat.ltb_ge in H. now rewrite H. Qed.

Lemma toString_two n :
  10 <= n < 100 -> toString n = [digit (n / 10); digit (n mod 10)].
Proof.
  intros [Hlo Hhi]. unfold toString. rewrite digitsOf_more by assumption.
  destruct n as [|n]; [lia|]. rewrite digitsOf_small; [reflexivity|].
  apply Nat.Div0.div_lt_upper_bound; lia.
Qed.

(** A count below 100 is shown with exactly two digits. *)
Lemma padStart_two n :
  n < 100 -> padStart (toString n) 2 ZERO = [digit (n / 10); digit (n mod 10)].
Proof.
  intros H. destruct (Nat.lt_ge_cases n 10) as [Hs|Hl].
  - unfold toString. rewrite digitsOf_small by assumption.
    rewrite Nat.div_small, Nat.mod_small by assumption. reflexivity.
  - rewrite toString_two by lia. reflexivity.
Qed.

Lemma valueFrom_app acc a b : valueFrom acc (a ++ b) = valueFrom (valueFrom acc a) b.
Proof. apply fold_left_app. Qed.

Lemma value_digit acc d : d < 10 -> valueFrom acc [digit d] = 10 * acc + d.
Proof.
  intros H. unfold valueFrom, digit. cbn [fold_left].
  rewrite Nat2N.id. lia.
Qed.

Lemma value_digitsOf fuel : forall n, n < fuel -> valueFrom 0 (digitsOf fuel n) = n.
Proof.
  induction fuel as [|fuel IH]; intros n Hn; [lia|].
  destruct (Nat.lt_ge_cases n 10) as [Hs|Hl].
  - rewrite digitsOf_small by assumption. rewrite value_digit by assumption. lia.
  - rewrite digitsOf_more by assumption.
    assert (Hdiv : n / 10 < fuel).
    { apply Nat.Div0.div_lt_upper_bound. lia. }
    rewrite valueFrom_app, IH by assumption.
    rewrite value_digit by (apply Nat.mod_upper_bound; lia).
    pose proof (Nat.div_mod_eq n 10). lia.
Qed.

Lemma value_toString n : valueFrom 0 (toString n) = n.
Proof. apply value_digitsOf. lia. Qed.

Lemma value_zeros k s : valueFrom 0 (repeat ZERO k ++ s) = valueFrom 0 s.
Proof. induction k as [|k IH]; [reflexivity|exact IH]. Qed.

Lemma value_padStart s k : valueFrom 0 (padStart s k ZERO) = valueFrom 0 s.
Proof. apply value_zeros. Qed.

(** The displayed time can be read back. *)
Lemma readTime_formatTime seconds : readTime (formatTime seconds) = seconds.
Proof.
  unfold readTime, formatTime.
  set (front := padStart (toString (seconds / 60)) 2 ZERO).
  assert (Hsecs : seconds mod 60 < 100).
  { pose proof (Nat.mod_upper_bound seconds 60). lia. }
  rewrite (padStart_two Hsecs).
  set (d1 := digit (seconds mod 60 / 10)). set (d2 := digit (seconds mod 60 mod 10)).
  assert (Hlen : length (front ++ [COLON] ++ [d1; d2]) = length front + 3)
    by (rewrite length_app; reflexivity).
  rewrite Hlen.
  replace (length front + 3 - 3) with (length front) by lia.
  replace (length front + 3 - 2) with (length front + 1) by lia.
  rewrite firstn_app, Nat.sub_diag, firstn_all. simpl firstn. rewrite app_nil_r.
  rewrite skipn_app. rewrite skipn_all2 by lia.
  replace (length front + 1 - length front) with 1 by lia.
  simpl skipn. simpl app.
  unfold front. rewrite value_padStart, value_toString.
  assert (Hback : valueFrom 0 [d1; d2] = seconds mod 60).
  { change [d1; d2] with ([d1] ++ [d2]). rewrite valueFrom_app.
    unfold d1, d2.
    rewrite !value_digit.
    - pose proof (Nat.div_mod_eq (seconds mod 60) 10). lia.
    - apply Nat.Div0.div_lt_upper_bound. lia.
    - apply Nat.mod_upper_bound. lia. }
  rewrite Hback. pose proof (Nat.div_mod_eq seconds 60). lia.
Qed.

(** The invariant of the upload tab: the file that is selected, if any, was
    accepted. *)
Definition selectionAccepted (u : Upload) : Prop :=
  forall file, selectedFile u = Some file -> acceptable file = true.

Lemma act_keeps_selection u a :
  selectionAccepted u -> selectionAccepted (act u a).
Proof.
  intros Hinv. destruct a as [files| |l]; simpl.
  - unfold handleFileChange. destruct files as [[|file rest]|]; auto.
    destruct (acceptable file) eqn:Hacc; auto.
    intros f [= <-]. exact Hacc.
  - intros f Hf. discriminate.
  - exact Hinv.
Qed.

Lemma actions_keep_selection actions : forall u,
  selectionAccepted u -> selectionAccepted (fold_left act actions u).
Proof.
  induction actions as [|a actions IH]; intros u Hinv; [exact Hinv|].
  simpl. apply IH. now apply act_keeps_selection.
Qed.

End RecorderFacts.

Import Transcription Recorder RecorderFacts.

(** X7. For less than 100 minutes, [formatTime] shows exactly five
    characters: two digits of minutes, a colon and two digits of seconds. *)
Theorem formatTime_below_100_minutes (seconds : nat) :
  seconds < 100 * 60 ->
  formatTime seconds =
  [digit (seconds / 600); digit (seconds / 60 mod 10); COLON;
   digit (seconds mod 60 / 10); digit (seconds mod 10)].
Proof.
  intros H. unfold formatTime.
  assert (Hmins : seconds / 60 < 100)
    by (apply Nat.Div0.div_lt_upper_bound; lia).
  assert (Hsecs : seconds mod 60 < 100)
    by (pose proof (Nat.mod_upper_bound seconds 60); lia).
  rewrite (padStart_two Hmins), (padStart_two Hsecs).
  rewrite Nat.Div0.div_div. change (60 * 10) with 600.
  assert (Hunit : seconds mod 60 mod 10 = seconds mod 10).
  { apply Nat.mod_unique with (q := 6 * (seconds / 60) + seconds mod 60 / 10).
    - apply Nat.mod_upper_bound. lia.
    - pose proof (Nat.div_mod_eq seconds 60).
      pose proof (Nat.div_mod_eq (seconds mod 60) 10). lia. }
  rewrite Hunit. reflexivity.
Qed.

Lemma formatTime_below_100_minutes_witness : formatTime 75 = lit "01:15".
Proof.
  assert (H : 75 < 100 * 60) by (vm_compute; lia).
  exact (formatTime_below_100_minutes H).
Defined.

(** X8. Two different counts of seconds are never shown as the same
    time. *)
Theorem formatTime_injective (a b : nat) :
  formatTime a = formatTime b -> a = b.
Proof.
  intros H. rewrite <- (readTime_formatTime a), <- (readTime_formatTime b).
  now rewrite H.
Qed.

Lemma formatTime_injective_witness :
  formatTime (59 + 1) = lit "01:00" /\ 59 + 1 = 60.
Proof.
  assert (H : formatTime (59 + 1) = formatTime 60) by reflexivity.
  split; [reflexivity|exact (formatTime_injective _ _ H)].
Defined.

(** X9. Whatever the user does on the upload tab, a file that [processFile]
    hands on for transcription has a type that starts with [audio/] or
    [video/]. *)
Theorem processFile_only_audio_or_video (actions : list action)
        (file : File) (l : Language) :
  processFile (fold_left act actions start) = Some (file, l) ->
  startsWith (fileType file) (lit "audio/") = true \/
  startsWith (fileType file) (lit "video/") = true.
Proof.
  intros H.
  assert (Hinv : selectionAccepted (fold_left act actions start)).
  { apply actions_keep_selection. intros f Hf. discriminate. }
  unfold processFile in H.
  destruct (selectedFile (fold_left act actions start)) as [f|] eqn:Hsel;
    [|discriminate].
  injection H as <- _. specialize (Hinv f Hsel).
  unfold acceptable in Hinv. now apply orb_true_iff.
Qed.

Lemma processFile_only_audio_or_video_witness :
  processFile (fold_left act visit start) = Some (talk, Urdu) /\
  (startsWith (fileType talk) (lit "audio/") = true \/
   startsWith (fileType talk) (lit "video/") = true).
Proof.
  assert (H : processFile (fold_left act visit start) = Some (talk, Urdu))
    by reflexivity.
  split; [exact H|exact (processFile_only_audio_or_video _ H)].
Defined.

(** ** Transcription and the application *)

Import App.

Section TranscriptionMore.

Variable Blob : Type.
Variable blobToBase64 : Blob -> outcome jsstring.
Variable Service : Type.
Variable generateContent :
  Service -> TranscriptionRequest -> outcome TranscriptionResponse * Service.

Lemma orElse_truthy a b : truthy b = true -> truthy (orElse a b) = true.
Proof.
  intros Hb. unfold orElse. destruct a as [s|]; [|exact Hb].
  destruct (truthy s) eqn:Hs; [exact Hs|exact Hb].
Qed.

Lemma transcribeAudio_truthy audioBlob mimeType language s transcript s' :
  transcribeAudio blobToBase64 generateContent audioBlob mimeType language s =
    (Return transcript, s') ->
  truthy transcript = true.
Proof.
  unfold transcribeAudio, transcribeBlock.
  destruct (blobToBase64 audioBlob) as [base64Audio|e]; [|discriminate].
  destruct (generateContent s _) as [[response|e] s1]; [|discriminate].
  intros [= <- <-]. now apply orElse_truthy.
Qed.

(** X10. [transcribeAudio] never returns the empty string: it returns the
    text of the reply, or the placeholder when that text is missing or
    empty. It fails with one fixed error only; when the blob cannot be read
    the service is not called, and otherwise it is called once, with the
    blob's data, the given type and the instruction of the language. *)
Theorem transcribeAudio_outcome audioBlob mimeType language s r s' :
  transcribeAudio blobToBase64 generateContent audioBlob mimeType language s = (r, s') ->
  match r with
  | Return transcript =>
      transcript <> [] /\
      exists base64Audio response,
        blobToBase64 audioBlob = Return base64Audio /\
        generateContent s (requestFor base64Audio mimeType language) =
          (Return response, s') /\
        transcript = match text response with
                     | Some t => if truthy t then t else noTranscription
                     | None => noTranscription
                     end
  | Throw e =>
      e = failedToTranscribe /\
      ((exists cause, blobToBase64 audioBlob = Throw cause /\ s' = s) \/
       (exists base64Audio cause,
           blobToBase64 audioBlob = Return base64Audio /\
           generateContent s (requestFor base64Audio mimeType language) =
             (Throw cause, s')))
  end.
Proof.
  intros H. pose proof H as H0. revert H.
  unfold transcribeAudio, transcribeBlock.
  destruct (blobToBase64 audioBlob) as [base64Audio|cause] eqn:Hblob.
  - destruct (generateContent s _) as [[response|cause] s1] eqn:Hcall;
      intros [= <- <-].
    + split.
      * apply transcribeAudio_truthy in H0. intros E. rewrite E in H0. discriminate.
      * exists base64Audio, response. auto.
    + split; [reflexivity|]. right. exists base64Audio, cause. auto.
  - intros [= <- <-]. split; [reflexivity|]. left. exists cause. auto.
Qed.

End TranscriptionMore.

Section AppMore.

Variable getMimeType : jsstring.
Variable blobToBase64 : AudioBlob -> outcome jsstring.
Variable Service : Type.
Variable generateContent :
  Service -> TranscriptionRequest -> outcome TranscriptionResponse * Service.

Local Abbreviation reachable := (reachable getMimeType blobToBase64 generateContent).
Local Abbreviation step := (step getMimeType blobToBase64 generateContent).
Local Abbreviation handleRecordingComplete :=
  (handleRecordingComplete getMimeType blobToBase64 generateContent).

Lemma step_sound m m' : step m m' -> sound m -> sound m'.
Proof.
  unfold sound.
  intros Hstep [Hdone Herr]. destruct Hstep as [st m Hst|m|m audioBlob language s|m].
  - split; [|exact Herr]. cbn. intros ->.
    destruct Hst as [E|[E|[E|[]]]]; discriminate.
  - split; cbn; discriminate.
  - destruct (transcribeAudio _ _ _ _ _ _) as [[text|e] s'] eqn:Hrun; cbn.
    + split; [|exact Herr]. intros _.
      apply transcribeAudio_truthy in Hrun. intros E. rewrite E in Hrun. discriminate.
    + split; [discriminate|]. now intros e0 [= <-].
  - split; cbn; discriminate.
Qed.

Lemma reachable_sound m : reachable m -> sound m.
Proof.
  induction 1 as [|m m' _ IH Hstep].
  - unfold sound. split; cbn; discriminate.
  - eapply step_sound; eassumption.
Qed.

(** X11. However recordings, uploads, transcriptions and resets interleave,
    the transcript view is only ever shown with a transcript that is not
    empty. *)
Theorem completed_has_transcript (m : Model) :
  reachable m -> appState m = COMPLETED -> transcript m <> [].
Proof.
  intros Hreach. apply (reachable_sound Hreach).
Qed.

(** X12. One run of [handleRecordingComplete] ends in [COMPLETED] with a
    transcript that is not empty and without an error message, or in [ERROR]
    with the fixed message and the transcript that was there before. An
    uploaded file is sent under its own type. *)
Theorem handleRecordingComplete_outcome audioBlob language m s m' s' :
  handleRecordingComplete audioBlob language m s = (m', s') ->
  (appState m' = COMPLETED /\ transcript m' <> [] /\ errorMsg m' = None /\
   exists base64Audio response,
     blobToBase64 audioBlob = Return base64Audio /\
     generateContent s
       (requestFor base64Audio
          (match audioBlob with
           | Uploaded file => fileType file
           | Recorded _ _ => getMimeType
           end) language) = (Return response, s'))
  \/
  (appState m' = ERROR /\ transcript m' = transcript m /\
   errorMsg m' = Some processingIssue).
Proof.
  unfold App.handleRecordingComplete.
  destruct (transcribeAudio _ _ _ _ _ _) as [r s1] eqn:Hrun.
  intros [= <- <-].
  destruct r as [text|e]; cbn.
  - left. pose proof (transcribeAudio_truthy _ _ _ _ _ _ Hrun) as Htruthy.
    split; [reflexivity|]. split.
    { intros E. rewrite E in Htruthy. discriminate. }
    split; [reflexivity|].
    revert Hrun. unfold transcribeAudio, transcribeBlock, mimeTypeOf.
    destruct (blobToBase64 audioBlob) as [base64Audio|cause]; [|discriminate].
    destruct (generateContent s _) as [[response|cause] s2] eqn:Hcall;
      [|discriminate].
    intros [= _ <-]. exists base64Audio, response. auto.
  - right. auto.
Qed.

End AppMore.

Lemma transcribeAudio_outcome_witness :
  transcribeAudio readBlob replay (Uploaded talk) (lit "audio/mpeg") Urdu [nothingHeard] =
    (Return noTranscription, []) /\
  noTranscription <> [].
Proof.
  assert (H : transcribeAudio readBlob replay (Uploaded talk) (lit "audio/mpeg") Urdu
                              [nothingHeard] = (Return noTranscription, []))
    by reflexivity.
  split; [exact H|].
  exact (proj1 (transcribeAudio_outcome _ _ _ _ _ _ H)).
Defined.

Lemma completed_has_transcript_witness :
  transcript (settle (Return (lit "Good morning.")) (begin initial)) <> [].
Proof.
  apply (@completed_has_transcript (lit "audio/webm") readBlob _ replay);
    [|reflexivity].
  eapply reach_step; [eapply reach_step; [apply reach_initial|apply step_begin]|].
  exact (step_settle (lit "audio/webm") readBlob replay
                     (begin initial) (Uploaded talk) Urdu [heard]).
Defined.

Lemma handleRecordingComplete_outcome_witness :
  handleRecordingComplete (lit "audio/webm") readBlob replay
                          (Uploaded talk) Urdu initial [Throw "quota"%string] =
    ({| appState := ERROR; transcript := []; errorMsg := Some processingIssue |}, []) /\
  errorMsg (fst (handleRecordingComplete (lit "audio/webm") readBlob replay
                   (Uploaded talk) Urdu initial [Throw "quota"%string]))
    = Some processingIssue.
Proof.
  assert (H : handleRecordingComplete (lit "audio/webm") readBlob replay
                (Uploaded talk) Urdu initial [Throw "quota"%string] =
              ({| appState := ERROR; transcript := [];
                  errorMsg := Some processingIssue |}, []))
    by reflexivity.
  split; [exact H|].
  destruct (handleRecordingComplete_outcome _ _ _ _ _ _ _ H)
    as [(Hdone & _)|(_ & _ & Herr)]; [discriminate|].
  rewrite H. exact Herr.
Defined.

(** ** The transcript view and the earlier [generateSpeech] *)

Import Display SpeechSingle.

Section DisplayMore.

Variable WavBlob : Type.
Variable Url : Type.
Variable createWavBlob : list byte -> N -> WavBlob.
Variable createObjectURL : WavBlob -> Url.
Variable Service : Type.
Variable generateContent :
  Service -> jsstring -> string -> outcome GenerateContentResponse * Service.
Variable decode : jsstring -> outcome (list byte).

Local Abbreviation generateSpeech := (generateSpeech generateContent decode).
Local Abbreviation generateSpeechSingle := (generateSpeechSingle generateContent decode).
Local Abbreviation handleGenerateAudio :=
  (handleGenerateAudio createWavBlob createObjectURL generateContent decode).

(** What a run of [generateSpeech] can give. *)
Lemma generateSpeech_results fuel text voiceName (w w' : World Service) r :
  generateSpeech fuel text voiceName w = Some (r, w') ->
  r = Throw failedToGenerate \/
  exists combinedAudio, r = Return combinedAudio /\ 0 < length combinedAudio.
Proof.
  intros Hrun.
  apply generateSpeech_tryBlock in Hrun as (r0 & Htry & ->).
  apply tryBlock_run in Htry as (textChunks & calls & _ & _ & Hshape).
  destruct r0 as [buf|e]; [|now left].
  right. exists buf. split; [reflexivity|].
  destruct Hshape as [Hc|(_ & _ & _ & e & _ & _ & _ & _ & E)]; [|discriminate].
  apply completed_result in Hc as [-> Hnz].
  rewrite length_concat_total. lia.
Qed.

(** X13. [handleGenerateAudio] does nothing for an empty transcript.
    Otherwise, when it settles, the busy flag is cleared and exactly one of
    two things happened: [generateSpeech] returned samples, which are not
    empty, and the address of their WAV blob at 24000 Hz is stored without
    an alert; or it threw, no address is stored (an earlier one is gone) and
    one alert was shown. *)
Theorem handleGenerateAudio_outcome fuel transcript selectedVoice
        (v v' : View Url) (w w' : World Service) :
  handleGenerateAudio fuel transcript selectedVoice v w = Some (v', w') ->
  if truthy transcript then
    isGeneratingAudio v' = false /\
    ((exists pcmData,
         generateSpeech fuel transcript selectedVoice w = Some (Return pcmData, w') /\
         0 < length pcmData /\
         audioUrl v' = Some (createObjectURL (createWavBlob pcmData 24000%N)) /\
         alerts v' = alerts v)
     \/
     (generateSpeech fuel transcript selectedVoice w = Some (Throw failedToGenerate, w') /\
      audioUrl v' = None /\
      alerts v' = alerts v ++ [failedAudio]))
  else v' = v /\ w' = w.
Proof.
  unfold Display.handleGenerateAudio.
  destruct (truthy transcript); cbn [negb].
  - destruct (Speech.generateSpeech _ _ _ _ _ _) as [[r w1]|] eqn:Hrun;
      [|discriminate].
    destruct (generateSpeech_results _ _ _ _ Hrun) as [->|(buf & -> & Hpos)];
      intros [= <- <-]; cbn.
    + split; [reflexivity|]. right. auto.
    + split; [reflexivity|]. left. exists buf. auto.
  - intros [= <- <-]. auto.
Qed.

(** X14. On a text that [chunkText] returns as its only segment, the chunked
    [generateSpeech] and the earlier one-request version both send exactly
    one request, the same one, and leave the same world behind, whatever the
    reply. They return the same audio, except that the chunked version
    refuses audio of zero bytes; and both throw when the other throws, each
    its own fixed error. *)
Theorem chunked_agrees_with_single fuel text voiceName (w : World Service) :
  chunkText fuel text = Some [text] ->
  exists chunked single,
    generateSpeech fuel text voiceName w =
      Some (chunked, worldAfter generateContent w text voiceName) /\
    generateSpeechSingle text voiceName w =
      (single, worldAfter generateContent w text voiceName) /\
    issued (worldAfter generateContent w text voiceName) =
      issued w ++ [{| callText := text; callVoice := voiceName;
                      callReply := fst (generateContent (remote w) text voiceName) |}] /\
    match single with
    | Return audio =>
        chunked = (if length audio =? 0 then Throw failedToGenerate else Return audio)
    | Throw e => e = failedSingle /\ chunked = Throw failedToGenerate
    end.
Proof.
  intros Hchunks.
  assert (Hspoken : spoken text = true).
  { pose proof (chunkText_pieces _ _ Hchunks) as [Ht _].
    inversion Ht as [|? ? Htrim _]. unfold trimmed in Htrim.
    unfold spoken. rewrite Htrim. destruct text; [|reflexivity].
    cbv in Hchunks. discriminate. }
  unfold Speech.generateSpeech, tryBlock, SpeechSingle.generateSpeechSingle, singleBlock.
  rewrite Hchunks, synthesize_head by assumption.
  rewrite await_generateContent_eq.
  unfold verdictOf, payloadOf.
  destruct (callReply (callOf generateContent w text voiceName)) as [response|e];
    [|do 2 eexists; repeat split].
  destruct (inlineAudio response) as [base64Audio|];
    [|do 2 eexists; repeat split].
  destruct (truthy base64Audio); cbn [negb];
    [|do 2 eexists; repeat split].
  destruct (decode base64Audio) as [audioData|e];
    [|do 2 eexists; repeat split].
  cbn [Speech.synthesize app].
  assert (Htotal : 0 + total [audioData] = length audioData)
    by (unfold total; simpl; lia).
  rewrite Htotal.
  destruct (Nat.eqb_spec (length audioData) 0) as [Hz|Hnz].
  - rewrite Hz. do 2 eexists. repeat split. cbn. now rewrite Hz.
  - rewrite assemble_nonzero by (unfold total; simpl; lia).
    cbn [concat]. rewrite app_nil_r.
    do 2 eexists. repeat split. cbn.
    apply Nat.eqb_neq in Hnz. now rewrite Hnz.
Qed.

End DisplayMore.

Lemma handleGenerateAudio_outcome_witness :
  handleGenerateAudio wavOf urlOf scripted base64ToUint8Array 0
                      (lit "Hello. World!") "Kore"
                      {| isGeneratingAudio := false; audioUrl := Some ([], 8000%N);
                         alerts := [] |}
                      (fresh [unavailable]) =
    Some ({| isGeneratingAudio := false; audioUrl := None; alerts := [failedAudio] |},
          left [] [{| callText := lit "Hello. World!"; callVoice := "Kore";
                      callReply := unavailable |}]) /\
  isGeneratingAudio
    {| isGeneratingAudio := false; audioUrl := @None (list byte * N);
       alerts := [failedAudio] |} = false.
Proof.
  assert (H : handleGenerateAudio wavOf urlOf scripted base64ToUint8Array 0
                (lit "Hello. World!") "Kore"
                {| isGeneratingAudio := false; audioUrl := Some ([], 8000%N);
                   alerts := [] |}
                (fresh [unavailable]) =
              Some ({| isGeneratingAudio := false; audioUrl := None;
                       alerts := [failedAudio] |},
                    left [] [{| callText := lit "Hello. World!"; callVoice := "Kore";
                                callReply := unavailable |}]))
    by (vm_compute; reflexivity).
  split; [exact H|].
  pose proof (@handleGenerateAudio_outcome _ _ _ _ _ _ _ _ _ _ _ _ _ _ H) as X.
  exact (proj1 X).
Defined.

Lemma chunked_agrees_with_single_witness :
  exists chunked single,
    speak 0 (lit "Hello. World!") [unavailable] =
      Some (chunked, worldAfter scripted (fresh [unavailable])
                                (lit "Hello. World!") "Puck") /\
    generateSpeechSingle scripted base64ToUint8Array (lit "Hello. World!") "Puck"
                         (fresh [unavailable]) =
      (single, worldAfter scripted (fresh [unavailable])
                          (lit "Hello. World!") "Puck") /\
    issued (worldAfter scripted (fresh [unavailable]) (lit "Hello. World!") "Puck") =
      issued (fresh [unavailable])
      ++ [{| callText := lit "Hello. World!"; callVoice := "Puck";
             callReply := fst (scripted (remote (fresh [unavailable]))
                                        (lit "Hello. World!") "Puck") |}] /\
    match single with
    | Return audio =>
        chunked = (if length audio =? 0 then Throw failedToGenerate else Return audio)
    | Throw e => e = failedSingle /\ chunked = Throw failedToGenerate
    end.
Proof.
  assert (Hchunks : chunkText 0 (lit "Hello. World!") = Some [lit "Hello. World!"])
    by (vm_compute; reflexivity).
  exact (@chunked_agrees_with_single _ scripted base64ToUint8Array _ _
           "Puck"%string (fresh [unavailable]) Hchunks).
Defined.
